(** * MapReduce worker: [doMap] and [doReduce]

    A shallow embedding of [src/DoMap.go] and [src/DoReduce.go].

    The two Go functions are sequential procedures over the file system,
    driven by the local variables [status] and [err].  They are embedded by
    explicit state passing over a [World] (files on disk, standard output,
    the log of user-transform invocations) and the locals the code keeps.

    What the Go files use but do not define is a parameter of the model:
    [reduceName] and [mergeName] (the naming scheme), the record codec
    ([encoding/json]'s [Encode], [More] and [Decode] on a [KeyValue]), the
    user transforms, and the order in which the Go runtime enumerates a map
    in a [range] statement. *)

From Stdlib Require Import ZArith Lia Ascii String.
From stdpp Require Import base strings list gmap pretty.

Open Scope Z_scope.

(** ** Data *)

(** [KeyValue] has two string fields, [Key] and [Value]. *)
Record KeyValue := KV { Key : string; Value : string }.

#[global] Instance KeyValue_eq_dec : EqDecision KeyValue.
Proof. solve_decision. Defined.

(** ** Errors

    The Go [error] values the two functions meet: a [*fs.PathError] from the
    [os] package, and the plain error strings of [errors.New] and of the
    codec. *)
Inductive cause :=
| ErrNotExist               (* fs.ErrNotExist *)
| ErrClosed                 (* os.ErrClosed: the file handle was closed *)
| ErrOther (msg : string).  (* any other system error *)

Inductive error :=
| PathError (op path : string) (c : cause)
| ErrorString (msg : string).

Definition cause_message (c : cause) : string :=
  match c with
  | ErrNotExist => "no such file or directory"
  | ErrClosed => "file already closed"
  | ErrOther msg => msg
  end.

(** [err.Error()] *)
Definition Error (e : error) : string :=
  match e with
  | PathError op path c => op +:+ " " +:+ path +:+ ": " +:+ cause_message c
  | ErrorString msg => msg
  end.

(** [errors.Is(err, fs.ErrNotExist)] *)
Definition Is_ErrNotExist (e : error) : bool :=
  match e with
  | PathError _ _ ErrNotExist => true
  | _ => false
  end.

(** ** The world

    [files] maps a path to the content of the regular file there.  [fault]
    says which system calls fail for a reason other than a missing file
    (permissions, a directory in the way, an I/O error): it is fixed during
    one invocation.  [stdout] collects what [fmt.Printf] writes, and [calls]
    the invocations of the user transforms, both oldest first.

    [write_limit] says which writes do not reach their file in full (a full
    disk, a quota, an I/O error at [WriteString] or [Close]): [Some k] for a
    path means that only the first [k] bytes of what is written there arrive.
    [capacity] is the longest slice the runtime of this machine can find
    memory for. *)
Inductive syscall := SysReadFile | SysStat | SysRemove | SysCreate | SysOpen.

#[global] Instance syscall_eq_dec : EqDecision syscall.
Proof. solve_decision. Defined.

Inductive call :=
| MapCall (file contents : string)
| ReduceCall (key : string) (values : list string).

Record World := mkWorld {
  files : gmap string string;
  fault : syscall → string → option string;
  stdout : list string;
  calls : list call;
  write_limit : string → option nat;
  capacity : Z
}.

Definition set_files (fs : gmap string string) (w : World) : World :=
  mkWorld fs (fault w) (stdout w) (calls w) (write_limit w) (capacity w).

Definition Printf (line : string) (w : World) : World :=
  mkWorld (files w) (fault w) (stdout w ++ [line]) (calls w)
    (write_limit w) (capacity w).

Definition log_call (c : call) (w : World) : World :=
  mkWorld (files w) (fault w) (stdout w) (calls w ++ [c])
    (write_limit w) (capacity w).

(** A run either returns to its caller or ends in a panic or in a fatal
    error of the runtime. *)
Inductive panic :=
| DivideByZero            (* integer divide by zero *)
| MakeSliceLen            (* makeslice: len out of range *)
| OutOfMemory             (* fatal error: runtime: out of memory *)
| IndexOutOfRange
| NilDereference.

Inductive result (A : Type) :=
| Returns (a : A) (w : World)
| Panics (p : panic) (w : World).
Arguments Returns {A} a w.
Arguments Panics {A} p w.

(** ** The [os] package, as far as the code uses it *)

(** [*os.File]: the path it was opened with and whether [Close] was called. *)
Record File := mkFile { f_name : string; f_closed : bool }.

Definition os_ReadFile (name : string) (w : World) : error + string :=
  match fault w SysReadFile name with
  | Some msg => inl (PathError "open" name (ErrOther msg))
  | None =>
      match files w !! name with
      | Some content => inr content
      | None => inl (PathError "open" name ErrNotExist)
      end
  end.

(** [os.Stat]: [None] is Go's [nil] error. *)
Definition os_Stat (name : string) (w : World) : option error :=
  match fault w SysStat name with
  | Some msg => Some (PathError "stat" name (ErrOther msg))
  | None =>
      match files w !! name with
      | Some _ => None
      | None => Some (PathError "stat" name ErrNotExist)
      end
  end.

Definition os_Remove (name : string) (w : World) : option error * World :=
  match fault w SysRemove name with
  | Some msg => (Some (PathError "remove" name (ErrOther msg)), w)
  | None =>
      match files w !! name with
      | Some _ => (None, set_files (delete name (files w)) w)
      | None => (Some (PathError "remove" name ErrNotExist), w)
      end
  end.

(** [os.Create] creates the file or truncates it. *)
Definition os_Create (name : string) (w : World) : (error + File) * World :=
  match fault w SysCreate name with
  | Some msg => (inl (PathError "open" name (ErrOther msg)), w)
  | None => (inr (mkFile name false), set_files (<[name := EmptyString]> (files w)) w)
  end.

Definition os_Open (name : string) (w : World) : error + File :=
  match fault w SysOpen name with
  | Some msg => inl (PathError "open" name (ErrOther msg))
  | None =>
      match files w !! name with
      | Some _ => inr (mkFile name false)
      | None => inl (PathError "open" name ErrNotExist)
      end
  end.

Fixpoint string_take (n : nat) (s : string) : string :=
  match n, s with
  | S n', String c s' => String c (string_take n' s')
  | _, _ => EmptyString
  end.

(** What arrives in the file at [path] of the bytes [s] written to it. *)
Definition cut (limit : string → option nat) (path s : string) : string :=
  match limit path with
  | Some k => string_take k s
  | None => s
  end.

Definition delivered (w : World) (path s : string) : string :=
  cut (write_limit w) path s.

(** [f.WriteString(s)] appends to the file what arrives of [s]; on a closed
    handle it writes nothing.  It returns the number of bytes written and an
    error: the code calls it as a statement and never sees them. *)
Definition File_WriteString (f : File) (s : string) (w : World) : World :=
  if f_closed f then w
  else set_files
         (alter (λ content, content +:+ delivered w (f_name f) s) (f_name f) (files w))
         w.

(** [f.Close()]: the handle is closed.  The code never looks at the error it
    returns; data that a failing [Close] loses counts as not delivered. *)
Definition File_Close (f : File) : File := mkFile (f_name f) true.

(** [make([]string, len)]: the runtime panics when the length is negative or
    when the slice would pass the 2^48 bytes that a 64-bit runtime addresses
    (2^44 strings of 16 bytes), and stops with a fatal error when it finds no
    memory for it: [capacity w] is the longest slice of strings that the
    machine holds.  The slices of pointers of the same length that [doMap]
    makes next are half as large. *)
Definition maxSliceLen : Z := 2 ^ 44.

Definition makeslice (len : Z) (w : World) : option panic :=
  if decide (len < 0 ∨ maxSliceLen < len) then Some MakeSliceLen
  else if decide (capacity w < len) then Some OutOfMemory
  else None.

(** The last element of a path, as [FileInfo.Name()] reports it: trailing
    slashes are dropped (but not the only character), then everything up to
    the last slash. *)
Fixpoint drop_slashes (rev_name : list ascii) : list ascii :=
  match rev_name with
  | c :: ((_ :: _) as rest) => if decide (c = "/"%char) then drop_slashes rest else rev_name
  | _ => rev_name
  end.

Fixpoint until_slash (rev_name : list ascii) : list ascii :=
  match rev_name with
  | [] => []
  | c :: rest => if decide (c = "/"%char) then [] else c :: until_slash rest
  end.

Definition basename (name : string) : string :=
  let stripped := drop_slashes (reverse (list_ascii_of_string name)) in
  match stripped with
  | [c] => string_of_list_ascii [c]
  | _ => string_of_list_ascii (reverse (until_slash stripped))
  end.

(** [f.Stat()]: a handle that was closed reports [os.ErrClosed]; an open one
    gives the file's info, of which the code reads [Name()]. *)
Definition File_Stat (f : File) : error + string :=
  if f_closed f then inl (PathError "stat" (f_name f) ErrClosed)
  else inr (basename (f_name f)).

(** ** [ihash]: 32-bit FNV-1a over the bytes of the key *)

Definition uint32 (z : Z) : Z := z mod 2 ^ 32.

Definition offset32 : Z := 2166136261.
Definition prime32 : Z := 16777619.

Definition byte_of (c : ascii) : Z := Z.of_N (N_of_ascii c).

Fixpoint fnv32a_Write (h : Z) (s : string) : Z :=
  match s with
  | EmptyString => h
  | String c s' => fnv32a_Write (uint32 (Z.lxor h (byte_of c) * prime32)) s'
  end.

Definition ihash (s : string) : Z := fnv32a_Write offset32 s.

(** ** What the two files use and do not define

    [reduceName] and [mergeName] name the shard and merge files.  [Encode] is
    [json.Encoder.Encode] on a [KeyValue]: the bytes it appends to its buffer,
    or an error.  [More] and [Decode] are [json.Decoder]'s, on the bytes not
    yet consumed: [Decode rest dst] decodes the next record into [dst] (the
    variable [tempKV], whose fields a record may leave untouched) and says how
    many bytes it consumed, less one.  [range_map] is the order in which a
    [range] statement enumerates a map: the language leaves it unspecified. *)
Class Externals := {
  reduceName : string → Z → Z → string;
  mergeName : string → Z → string;
  Encode : KeyValue → error + string;
  More : string → bool;
  Decode : string → KeyValue → error + (KeyValue * nat);
  range_map : gmap string (list string) → list (string * list string)
}.

(** The locals [status] and [err]. *)
Record flags := mkFlags { status : Z; err : option error }.

Definition fail (e : error) : flags := mkFlags (-1) (Some e).

Definition nl : string := String (ascii_of_nat 10) EmptyString.

Section Worker.
Context {ext : Externals}.

(** *** Shared by both executors *)

(** "Remove file if it already exists": [os.Stat], then [os.Remove] when the
    file is there.  An error other than [fs.ErrNotExist] is returned. *)
Definition remove_if_exists (fileName : string) (w : World) : option error * World :=
  match os_Stat fileName w with
  | None => os_Remove fileName w
  | Some tempErr => if Is_ErrNotExist tempErr then (None, w) else (Some tempErr, w)
  end.

(** [fmt.Printf("Function error [...]: %s\n", err.Error())] *)
Definition report (fn : string) (st : flags) (w : World) : result unit :=
  match err st with
  | Some e => Returns tt (Printf ("Function error [" +:+ fn +:+ "]: " +:+ Error e +:+ nl) w)
  | None => Panics NilDereference w
  end.

(** "Create new file and write", after [remove_if_exists]: what
    [outFiles[i]] (or [outFile]) is afterwards. *)
Definition create_and_write (fileName encodingString : string) (st : flags)
    (w : World) : flags * option File * World :=
  match remove_if_exists fileName w with
  | (Some tempErr, w1) => (fail tempErr, None, w1)
  | (None, w1) =>
      match os_Create fileName w1 with
      | (inl tempErr, w2) => (fail tempErr, None, w2)
      | (inr file, w2) =>
          (st, Some (File_Close file), File_WriteString file encodingString w2)
      end
  end.

(** *** [doMap] *)

(** [ihash(kv.Key) % uint32(nReduce)]; [None] is the division by zero. *)
Definition partition (key : string) (nReduce : Z) : option Z :=
  if decide (uint32 nReduce = 0) then None
  else Some (ihash key mod uint32 nReduce).

(** "For each KeyValue pair, determine respective encoder and encode."
    [buffers] holds what each encoder has written so far. *)
Fixpoint encode_loop (keyValues : list KeyValue) (nReduce : Z) (st : flags)
    (buffers : list string) : panic + (flags * list string) :=
  match keyValues with
  | [] => inr (st, buffers)
  | kv :: keyValues' =>
      match partition (Key kv) nReduce with
      | None => inl DivideByZero
      | Some encIndex =>
          match buffers !! Z.to_nat encIndex with
          | None => inl IndexOutOfRange
          | Some buffer =>
              match Encode kv with
              | inl tempErr => inr (fail tempErr, buffers)
              | inr bytes =>
                  encode_loop keyValues' nReduce st
                    (<[Z.to_nat encIndex := buffer +:+ bytes]> buffers)
              end
          end
      end
  end.

(** "Creates Reduce files to store encodings": the loop from index [i] on,
    over the strings from [encodingStrings[i]] on.  Every failure breaks. *)
Fixpoint create_loop (jobName : string) (mapTaskNumber : Z)
    (todo : list string) (i : Z) (st : flags) (outFiles : list (option File))
    (w : World) : flags * list (option File) * World :=
  match todo with
  | [] => (st, outFiles, w)
  | encodingString :: todo' =>
      let fileName := reduceName jobName mapTaskNumber i in
      match create_and_write fileName encodingString st w with
      | (st1, None, w1) => (st1, outFiles, w1)
      | (st1, Some file, w1) =>
          create_loop jobName mapTaskNumber todo' (i + 1) st1
            (<[Z.to_nat i := Some file]> outFiles) w1
      end
  end.

(** "Remove any created intermediate file", for one handle: if it is not
    nil, [Stat] it, and if that works [Close] it and
    [os.Remove(fileInfo.Name())]. *)
Definition cleanup_file (outFile : option File) (st : flags) (w : World)
    : flags * World :=
  match outFile with
  | None => (st, w)
  | Some file =>
      match File_Stat file with
      | inl tempErr => (fail tempErr, w)
      | inr name =>
          match os_Remove name w with
          | (Some tempErr, w1) => (fail tempErr, w1)
          | (None, w1) => (st, w1)
          end
      end
  end.

Fixpoint cleanup_loop (outFiles : list (option File)) (st : flags) (w : World)
    : flags * World :=
  match outFiles with
  | [] => (st, w)
  | outFile :: outFiles' =>
      let '(st1, w1) := cleanup_file outFile st w in
      cleanup_loop outFiles' st1 w1
  end.

(** The body of [doMap] up to "Handle any error, and return": the locals
    [status], [err] and [outFiles] it ends with. *)
Definition doMap_body (jobName : string) (mapTaskNumber : Z) (inFile : string)
    (nReduce : Z) (mapFunc : string → string → list KeyValue) (w : World)
    : result (flags * list (option File)) :=
  (* Open and read the contents of the file *)
  let '(st, content) :=
    match os_ReadFile inFile w with
    | inl tempErr => (fail tempErr, EmptyString)
    | inr contentBytes => (mkFlags 0 None, contentBytes)
    end in
  (* encodingStrings := make([]string, nReduce) *)
  match makeslice nReduce w with Some p => Panics p w | None =>
  let empty := replicate (Z.to_nat nReduce) EmptyString in
  (* mapFunc, and one buffer and encoder for each Reduce file *)
  let encoded :=
    if decide (status st = 0) then
      let w1 := log_call (MapCall inFile content) w in
      match encode_loop (mapFunc inFile content) nReduce st empty with
      | inl p => Panics p w1
      | inr (st1, buffers) =>
          Returns (st1, if decide (status st1 = 0) then buffers else empty) w1
      end
    else Returns (st, empty) w in
  match encoded with
  | Panics p w1 => Panics p w1
  | Returns (st1, encodingStrings) w1 =>
      (* Creates Reduce files to store encodings *)
      if decide (status st1 = 0) then
        let outFiles := replicate (length encodingStrings) None in
        let '(st2, outFiles, w2) :=
          create_loop jobName mapTaskNumber encodingStrings 0 st1 outFiles w1 in
        Returns (st2, outFiles) w2
      else Returns (st1, []) w1
  end
  end.

(** "Handle any error, and return" *)
Definition doMap_handle (st : flags) (outFiles : list (option File)) (w : World)
    : result unit :=
  if decide (status st = 0) then Returns tt w
  else
    let '(st1, w1) := cleanup_loop outFiles st w in
    report "DoMap.doMap" st1 w1.

Definition doMap (jobName : string) (mapTaskNumber : Z) (inFile : string)
    (nReduce : Z) (mapFunc : string → string → list KeyValue) (w : World)
    : result unit :=
  match doMap_body jobName mapTaskNumber inFile nReduce mapFunc w with
  | Panics p w1 => Panics p w1
  | Returns (st, outFiles) w1 => doMap_handle st outFiles w1
  end.

(** *** [doReduce] *)

Fixpoint string_drop (n : nat) (s : string) : string :=
  match n, s with
  | S n', String _ s' => string_drop n' s'
  | _, _ => s
  end.

(** [decoder.More()]: at the end of the input there is nothing more. *)
Definition decoder_More (rest : string) : bool :=
  match rest with
  | EmptyString => false
  | _ => More rest
  end.

(** [for decoder.More() { decoder.Decode(&tempKV) ... }] over the bytes [rest]
    not yet consumed.  Every round consumes a byte at least, so [fuel] rounds
    are enough when [fuel] is the length of [rest]. *)
Fixpoint decode_loop (fuel : nat) (rest : string) (tempKV : KeyValue)
    (st : flags) (keyValues : list KeyValue) : flags * list KeyValue :=
  match fuel with
  | O => (st, keyValues)
  | S fuel' =>
      if decoder_More rest then
        match Decode rest tempKV with
        | inl tempErr => (fail tempErr, keyValues)
        | inr (kv, n) =>
            decode_loop fuel' (string_drop (S n) rest) kv st (keyValues ++ [kv])
        end
      else (st, keyValues)
  end.

(** Decoding one opened shard file: [tempKV] starts as the zero value. *)
Definition decode_file (content : string) (st : flags)
    (keyValues : list KeyValue) : flags * list KeyValue :=
  decode_loop (String.length content) content (KV EmptyString EmptyString)
    st keyValues.

(** "Decode files": [count] iterations from index [i] on.  A failure of
    [os.Stat] or [os.Open] breaks this loop; a failure of [Decode] breaks the
    inner loop only, and the next file is read. *)
Fixpoint read_loop (jobName : string) (reduceTaskNumber : Z) (count : nat)
    (i : Z) (st : flags) (keyValues : list KeyValue) (w : World)
    : flags * list KeyValue :=
  match count with
  | O => (st, keyValues)
  | S count' =>
      let fileName := reduceName jobName i reduceTaskNumber in
      match os_Stat fileName w with
      | Some tempErr =>
          if Is_ErrNotExist tempErr
          then read_loop jobName reduceTaskNumber count' (i + 1) st keyValues w
          else (fail tempErr, keyValues)
      | None =>
          match os_Open fileName w with
          | inl tempErr => (fail tempErr, keyValues)
          | inr file =>
              let content := default EmptyString (files w !! f_name file) in
              let '(st1, keyValues1) := decode_file content st keyValues in
              read_loop jobName reduceTaskNumber count' (i + 1) st1 keyValues1 w
          end
      end
  end.

(** [keyValuesMap[kv.Key] = append(keyValuesMap[kv.Key], kv.Value)] *)
Definition group_step (keyValuesMap : gmap string (list string)) (kv : KeyValue)
    : gmap string (list string) :=
  <[Key kv := default [] (keyValuesMap !! Key kv) ++ [Value kv]]> keyValuesMap.

Definition group (keyValues : list KeyValue) : gmap string (list string) :=
  foldl group_step ∅ keyValues.

(** "Create new KeyValue array with Reduce function results", over the
    entries of the map in the order the runtime enumerates them. *)
Fixpoint reduce_loop (reduceFunc : string → list string → string)
    (entries : list (string * list string)) (st : flags)
    (newKeyValues : list KeyValue) (w : World) : flags * list KeyValue * World :=
  match entries with
  | [] => (st, newKeyValues, w)
  | (key, value) :: entries' =>
      let w1 := log_call (ReduceCall key value) w in
      let newValue := reduceFunc key value in
      if decide (newValue = "error")
      then (fail (ErrorString "Reduce Function Error"), newKeyValues, w1)
      else reduce_loop reduceFunc entries' st (newKeyValues ++ [KV key newValue]) w1
  end.

(** "Encode to JSON": one encoder, one buffer. *)
Fixpoint encode_all (newKeyValues : list KeyValue) (st : flags) (buffer : string)
    : flags * string :=
  match newKeyValues with
  | [] => (st, buffer)
  | kv :: newKeyValues' =>
      match Encode kv with
      | inl tempErr => (fail tempErr, buffer)
      | inr bytes => encode_all newKeyValues' st (buffer +:+ bytes)
      end
  end.

(** The body of [doReduce] up to "Handle any error, and return": the locals
    [status], [err] and [outFile] it ends with. *)
Definition doReduce_body (jobName : string) (reduceTaskNumber nMap : Z)
    (reduceFunc : string → list string → string) (w : World)
    : flags * option File * World :=
  (* Decode files *)
  let '(st1, keyValues) :=
    read_loop jobName reduceTaskNumber (Z.to_nat nMap) 0 (mkFlags 0 None) [] w in
  (* Create key-to-values map for Reduce function input *)
  let keyValuesMap := if decide (status st1 = 0) then group keyValues else ∅ in
  (* Create new KeyValue array with Reduce function results *)
  let '(st2, newKeyValues, w2) :=
    if decide (status st1 = 0)
    then reduce_loop reduceFunc (range_map keyValuesMap) st1 [] w
    else (st1, [], w) in
  (* Encode to JSON *)
  let '(st3, encodingString) :=
    if decide (status st2 = 0) then
      let '(st, buffer) := encode_all newKeyValues st2 EmptyString in
      (st, if decide (status st = 0) then buffer else EmptyString)
    else (st2, EmptyString) in
  (* Create and write encoding to new Merge file *)
  if decide (status st3 = 0)
  then create_and_write (mergeName jobName reduceTaskNumber) encodingString st3 w2
  else (st3, None, w2).

(** "Handle any error, and return" *)
Definition doReduce_handle (st : flags) (outFile : option File) (w : World)
    : result unit :=
  if decide (status st = 0) then Returns tt w
  else
    let '(st1, w1) := cleanup_file outFile st w in
    report "DoReduce.doReduce" st1 w1.

Definition doReduce (jobName : string) (reduceTaskNumber nMap : Z)
    (reduceFunc : string → list string → string) (w : World) : result unit :=
  let '(st, outFile, w1) :=
    doReduce_body jobName reduceTaskNumber nMap reduceFunc w in
  doReduce_handle st outFile w1.

End Worker.

(** ** A concrete instance

    The names are those of the usual [common.go] of this worker
    ([mrtmp.<job>-<map>-<reduce>] and [mrtmp.<job>-res-<reduce>]); the codec
    writes one [{"Key":...,"Value":...}] object per line and reads it back,
    for keys and values without quotes or escapes; the user transforms are
    those of a word count. *)
Module Sample.

Definition dq : string := String (ascii_of_nat 34) EmptyString.

Definition sample_reduceName (jobName : string) (mapTask reduceTask : Z) : string :=
  "mrtmp." +:+ jobName +:+ "-" +:+ pretty mapTask +:+ "-" +:+ pretty reduceTask.

Definition sample_mergeName (jobName : string) (reduceTask : Z) : string :=
  "mrtmp." +:+ jobName +:+ "-res-" +:+ pretty reduceTask.

Definition key_prefix : string := "{" +:+ dq +:+ "Key" +:+ dq +:+ ":" +:+ dq.
Definition value_prefix : string := dq +:+ "," +:+ dq +:+ "Value" +:+ dq +:+ ":" +:+ dq.
Definition record_suffix : string := dq +:+ "}".

(** One record, as [json.Encoder.Encode] writes it, newline included. *)
Definition record (key value : string) : string :=
  key_prefix +:+ key +:+ value_prefix +:+ value +:+ record_suffix +:+ nl.

(** The sample encoder does not escape: it refuses a key or a value with a
    quote in it. *)
Fixpoint plain (s : string) : bool :=
  match s with
  | EmptyString => true
  | String c s' => negb (bool_decide (c = ascii_of_nat 34)) && plain s'
  end.

Definition sample_Encode (kv : KeyValue) : error + string :=
  if plain (Key kv) && plain (Value kv) then inr (record (Key kv) (Value kv))
  else inl (ErrorString "json: unsupported value").

Definition is_space (c : ascii) : bool :=
  bool_decide (c = " "%char) || bool_decide (c = ascii_of_nat 10)
  || bool_decide (c = ascii_of_nat 9) || bool_decide (c = ascii_of_nat 13).

Fixpoint skip_space (s : string) : string :=
  match s with
  | String c s' => if is_space c then skip_space s' else s
  | EmptyString => s
  end.

Fixpoint expect (prefix s : string) : option string :=
  match prefix, s with
  | EmptyString, _ => Some s
  | String p prefix', String c s' => if decide (p = c) then expect prefix' s' else None
  | String _ _, EmptyString => None
  end.

(** The characters up to the next quote, and what follows them (the quote
    included). *)
Fixpoint read_plain (s : string) : option (string * string) :=
  match s with
  | EmptyString => None
  | String c s' =>
      if decide (c = ascii_of_nat 34) then Some (EmptyString, s)
      else match read_plain s' with
           | Some (word, rest) => Some (String c word, rest)
           | None => None
           end
  end.

Definition sample_More (rest : string) : bool :=
  match skip_space rest with
  | EmptyString => false
  | String c _ => negb (bool_decide (c = "]"%char) || bool_decide (c = "}"%char))
  end.

Definition sample_Decode (rest : string) (dst : KeyValue)
    : error + (KeyValue * nat) :=
  let bad := inl (ErrorString "invalid character in record") in
  match expect key_prefix (skip_space rest) with
  | None => bad
  | Some s1 =>
      match read_plain s1 with
      | None => inl (ErrorString "unexpected EOF")
      | Some (k, s2) =>
          match expect value_prefix s2 with
          | None => bad
          | Some s3 =>
              match read_plain s3 with
              | None => inl (ErrorString "unexpected EOF")
              | Some (v, s4) =>
                  match expect record_suffix s4 with
                  | None => bad
                  | Some s5 =>
                      inr (KV k v, Nat.pred (String.length rest - String.length s5))
                  end
              end
          end
      end
  end.

(** Two runtimes that differ in the order of [range] over a map only. *)
Definition sample : Externals := {|
  reduceName := sample_reduceName;
  mergeName := sample_mergeName;
  Encode := sample_Encode;
  More := sample_More;
  Decode := sample_Decode;
  range_map := map_to_list
|}.

Definition sample_reversed : Externals := {|
  reduceName := sample_reduceName;
  mergeName := sample_mergeName;
  Encode := sample_Encode;
  More := sample_More;
  Decode := sample_Decode;
  range_map := λ m, reverse (map_to_list m)
|}.

(** Word count: one pair [(word, "1")] for each word of the input, and the
    number of values of a key. *)
Fixpoint words_from (s word : string) : list string :=
  match s with
  | EmptyString => if decide (word = EmptyString) then [] else [word]
  | String c s' =>
      if is_space c
      then (if decide (word = EmptyString) then [] else [word]) ++ words_from s' EmptyString
      else words_from s' (word +:+ String c EmptyString)
  end.

Definition wc_mapFunc (file contents : string) : list KeyValue :=
  (λ word, KV word "1") <$> words_from contents EmptyString.

Definition wc_reduceFunc (key : string) (values : list string) : string :=
  pretty (Z.of_nat (length values)).

(** A reduce transform for which ["error"] is an ordinary result: the last
    value seen for the key. *)
Definition last_reduceFunc (key : string) (values : list string) : string :=
  default EmptyString (last values).

Definition no_fault : syscall → string → option string := λ _ _, None.

Definition no_limit : string → option nat := λ _, None.

(** A machine with memory for slices of a million elements. *)
Definition sample_capacity : Z := 1000000.

Definition disk (contents : list (string * string)) : World :=
  mkWorld (list_to_map contents) no_fault [] [] no_limit sample_capacity.

Definition faulty_disk (contents : list (string * string))
    (flt : syscall → string → option string) : World :=
  mkWorld (list_to_map contents) flt [] [] no_limit sample_capacity.

(** A disk where nothing of what is written to [path] arrives. *)
Definition full_disk (contents : list (string * string)) (path : string) : World :=
  mkWorld (list_to_map contents) no_fault [] []
    (λ p, if String.eqb p path then Some 0%nat else None) sample_capacity.

(** The input of a map task; a disk where the second shard of that task
    cannot be created; the shards of two map tasks for reduce task 0; the
    same without the first; a shard with the value ["error"]. *)
Definition wc_input : World := disk [("in.txt", "a b a c d")].

Definition create_fault (c : syscall) (path : string) : option string :=
  match c with
  | SysCreate => if String.eqb path "mrtmp.job-0-1" then Some "permission denied" else None
  | _ => None
  end.

Definition faulty_input : World := faulty_disk [("in.txt", "a")] create_fault.

Definition two_shards : World :=
  disk [("mrtmp.job-0-0", record "a" "1");
        ("mrtmp.job-1-0", record "a" "2" +:+ record "b" "3")].


(** The same input and the same shards on disks where nothing arrives of
    what is written to the second shard, or to the merge file. *)
Definition wc_input_full : World :=
  full_disk [("in.txt", "a b a c d")] "mrtmp.job-0-1".


Definition sparse_shards : World := disk [("mrtmp.job-1-0", record "a" "1")].

Definition error_value : World := disk [("mrtmp.job-0-0", record "k" "error")].

(** An encoder that refuses the key ["c"], and a shard that is not a
    sequence of records. *)
Definition refusing_Encode (kv : KeyValue) : error + string :=
  if String.eqb (Key kv) "c" then inl (ErrorString "json: unsupported value")
  else sample_Encode kv.

Definition sample_refusing : Externals := {|
  reduceName := sample_reduceName;
  mergeName := sample_mergeName;
  Encode := refusing_Encode;
  More := sample_More;
  Decode := sample_Decode;
  range_map := map_to_list
|}.

Definition damaged_shard : World :=
  disk [("mrtmp.job-0-0", record "a" "1" +:+ "{oops")].

End Sample.

(** ** Vocabulary of the properties *)

Section Vocabulary.
Context {ext : Externals}.

(** The bytes of a sequence of records, when every one of them encodes. *)
Fixpoint records (keyValues : list KeyValue) : option string :=
  match keyValues with
  | [] => Some EmptyString
  | kv :: keyValues' =>
      match Encode kv, records keyValues' with
      | inr bytes, Some rest => Some (bytes +:+ rest)
      | _, _ => None
      end
  end.

(** The pairs of a map output that go to shard [i], in their order. *)
Definition routed (nReduce i : Z) (keyValues : list KeyValue) : list KeyValue :=
  filter (λ kv, partition (Key kv) nReduce = Some i) keyValues.

(** The files after writing [todo] to the shards [i], [i + 1], ... of a map
    task. *)
Fixpoint write_shards (limit : string → option nat) (jobName : string)
    (mapTaskNumber : Z) (todo : list string) (i : Z) (fs : gmap string string)
    : gmap string string :=
  match todo with
  | [] => fs
  | encodingString :: todo' =>
      write_shards limit jobName mapTaskNumber todo' (i + 1)
        (<[reduceName jobName mapTaskNumber i :=
             cut limit (reduceName jobName mapTaskNumber i) encodingString]> fs)
  end.

(** The shard names of a map task do not collide. *)
Definition shard_names_distinct (jobName : string) (mapTaskNumber nReduce : Z) : Prop :=
  ∀ i j, 0 ≤ i < nReduce → 0 ≤ j < nReduce →
    reduceName jobName mapTaskNumber i = reduceName jobName mapTaskNumber j → i = j.

(** The pairs stored in the shard that map task [i] left for a reduce task:
    none when the file is absent. *)
Definition stored (w : World) (jobName : string) (reduceTaskNumber i : Z)
    : list KeyValue :=
  match files w !! reduceName jobName i reduceTaskNumber with
  | Some content => (decode_file content (mkFlags 0 None) []).2
  | None => []
  end.

(** All of them, shard files in ascending map index. *)
Definition input_pairs (w : World) (jobName : string) (reduceTaskNumber nMap : Z)
    : list KeyValue :=
  mjoin (stored w jobName reduceTaskNumber <$> seqZ 0 nMap).

(** The values of a key, in the order of the pairs. *)
Definition values_of (key : string) (keyValues : list KeyValue) : list string :=
  Value <$> filter (λ kv, Key kv = key) keyValues.

(** The record the executor makes of one entry of the grouping map. *)
Definition reduced (reduceFunc : string → list string → string)
    (entry : string * list string) : KeyValue :=
  KV entry.1 (reduceFunc entry.1 entry.2).

(** The invocation of the reduce transform on one entry, and a world with
    more invocations logged. *)
Definition reduce_call (entry : string * list string) : call :=
  ReduceCall entry.1 entry.2.

Definition log_calls (cs : list call) (w : World) : World :=
  mkWorld (files w) (fault w) (stdout w) (calls w ++ cs)
    (write_limit w) (capacity w).

(** The flags are either untouched or those of a failure. *)
Definition flags_ok (st : flags) : Prop :=
  st = mkFlags 0 None ∨ ∃ e, st = fail e.

(** Every handle in the list was closed. *)
Definition all_closed (outFiles : list (option File)) : Prop :=
  Forall (λ outFile, ∀ file, outFile = Some file → f_closed file = true) outFiles.

(** [range] enumerates every entry of the map once, in some order. *)
Definition range_enumerates : Prop :=
  ∀ m : gmap string (list string), range_map m ≡ₚ map_to_list m.

(** No system call fails for a reason other than a missing file. *)
Definition no_faults (w : World) : Prop := ∀ c path, fault w c path = None.



(** The error that the handler of [doMap] ends with: that of the body, or,
    when handles are left in [outFiles], that of [Stat] on the last of them. *)
Definition handler_error (e : error) (outFiles : list (option File)) : error :=
  match last (omap id outFiles) with
  | Some file => PathError "stat" (f_name file) ErrClosed
  | None => e
  end.

(** The line a failed task prints. *)
Definition error_line (fn : string) (e : error) : string :=
  "Function error [" +:+ fn +:+ "]: " +:+ Error e +:+ nl.

End Vocabulary.


(** ** Properties *)

Section Properties.
Context {ext : Externals}.

Lemma ihash_test_vector : ihash "a" = 3826002220.
Proof. reflexivity. Qed.

Lemma fnv32a_Write_range h s : 0 ≤ h < 2 ^ 32 → 0 ≤ fnv32a_Write h s < 2 ^ 32.
Proof.
  revert h. induction s as [|c s IH]; intros h Hh; simpl; [done|].
  apply IH. unfold uint32. apply Z.mod_pos_bound. lia.
Qed.

Lemma ihash_range s : 0 ≤ ihash s < 2 ^ 32.
Proof. apply fnv32a_Write_range. unfold offset32. lia. Qed.

Lemma uint32_range z : 0 ≤ uint32 z < 2 ^ 32.
Proof. unfold uint32. apply Z.mod_pos_bound. lia. Qed.

Lemma uint32_small z : 0 ≤ z < 2 ^ 32 → uint32 z = z.
Proof. intros. unfold uint32. by apply Z.mod_small. Qed.

Lemma uint32_le z : 0 ≤ z → uint32 z ≤ z.
Proof. intros. unfold uint32. apply Z.mod_le; lia. Qed.

Lemma partition_Some key nReduce idx :
  partition key nReduce = Some idx →
  uint32 nReduce ≠ 0 ∧ idx = ihash key mod uint32 nReduce ∧ 0 ≤ idx < uint32 nReduce.
Proof.
  unfold partition. case_decide; [done|]. intros [= <-].
  split; [done|]. split; [done|].
  apply Z.mod_pos_bound. pose proof (uint32_range nReduce). lia.
Qed.

(** *** Strings and worlds *)

Lemma string_app_assoc (s1 s2 s3 : string) : (s1 +:+ s2) +:+ s3 = s1 +:+ (s2 +:+ s3).
Proof.
  induction s1 as [|c s1 IH]; [reflexivity|].
  change (String c ((s1 +:+ s2) +:+ s3) = String c (s1 +:+ (s2 +:+ s3))).
  by f_equal.
Qed.

Lemma string_app_nil_r (s : string) : s +:+ EmptyString = s.
Proof.
  induction s as [|c s IH]; [reflexivity|].
  change (String c (s +:+ EmptyString) = String c s). by f_equal.
Qed.

Lemma set_files_id w : set_files (files w) w = w.
Proof. by destruct w. Qed.

(** *** The shared steps *)

Lemma remove_if_exists_ok fileName w w1 :
  remove_if_exists fileName w = (None, w1) →
  w1 = set_files (delete fileName (files w)) w.
Proof.
  unfold remove_if_exists, os_Stat, os_Remove.
  destruct (fault w SysStat fileName); simpl; [done|].
  destruct (files w !! fileName) eqn:Hf; simpl.
  - destruct (fault w SysRemove fileName); [done|]. by intros [= <-].
  - intros [= <-]. by rewrite delete_id, set_files_id.
Qed.

Lemma remove_if_exists_frame fileName w o w1 :
  remove_if_exists fileName w = (o, w1) →
  fault w1 = fault w ∧ stdout w1 = stdout w ∧ calls w1 = calls w.
Proof.
  unfold remove_if_exists, os_Stat, os_Remove.
  destruct (fault w SysStat fileName); simpl; [by intros [= <- <-]|].
  destruct (files w !! fileName); simpl.
  - destruct (fault w SysRemove fileName); by intros [= <- <-].
  - by intros [= <- <-].
Qed.

Lemma create_and_write_Some fileName encodingString st w st1 file w1 :
  create_and_write fileName encodingString st w = (st1, Some file, w1) →
  st1 = st ∧ file = mkFile fileName true ∧
  w1 = set_files (<[fileName := delivered w fileName encodingString]> (files w)) w.
Proof.
  unfold create_and_write.
  destruct (remove_if_exists fileName w) as [[e|] w0] eqn:Hrm; [done|].
  apply remove_if_exists_ok in Hrm as ->.
  unfold os_Create. simpl.
  destruct (fault w SysCreate fileName); [done|].
  intros [= <- <- <-]. split; [done|]. split; [done|].
  unfold File_WriteString. simpl.
  by rewrite alter_insert_eq, insert_delete_eq.
Qed.

Lemma cut_empty limit path : cut limit path EmptyString = EmptyString.
Proof. unfold cut. destruct (limit path) as [[|k]|]; done. Qed.

Lemma cut_no_limit limit path s : limit path = None → cut limit path s = s.
Proof. intros Hl. unfold cut. by rewrite Hl. Qed.

Lemma makeslice_None len w :
  makeslice len w = None → 0 ≤ len ≤ maxSliceLen ∧ len ≤ capacity w.
Proof. unfold makeslice. repeat case_decide; [done..|]. intros _. lia. Qed.

Lemma makeslice_fits len w :
  0 ≤ len ≤ maxSliceLen → len ≤ capacity w → makeslice len w = None.
Proof.
  intros Hlen Hcap. unfold makeslice.
  rewrite decide_False by lia. by rewrite decide_False by lia.
Qed.

Lemma create_and_write_None fileName encodingString st w st1 w1 :
  create_and_write fileName encodingString st w = (st1, None, w1) →
  (∃ e, st1 = fail e) ∧
  fault w1 = fault w ∧ stdout w1 = stdout w ∧ calls w1 = calls w.
Proof.
  unfold create_and_write.
  destruct (remove_if_exists fileName w) as [[e|] w0] eqn:Hrm.
  - intros [= <- <-]. split; [by eexists|]. by eapply remove_if_exists_frame.
  - apply remove_if_exists_frame in Hrm as (Hf & Ho & Hc).
    unfold os_Create. destruct (fault w0 SysCreate fileName); [|done].
    intros [= <- <-]. split; [by eexists|done].
Qed.

(** *** [doMap]: the encoders *)

Lemma routed_cons nReduce i kv keyValues :
  routed nReduce i (kv :: keyValues) =
  if decide (partition (Key kv) nReduce = Some i)
  then kv :: routed nReduce i keyValues else routed nReduce i keyValues.
Proof. unfold routed. by rewrite filter_cons. Qed.

Lemma encode_loop_status keyValues nReduce st buffers st1 buffers1 :
  encode_loop keyValues nReduce st buffers = inr (st1, buffers1) →
  st1 = st ∨ ∃ e, st1 = fail e.
Proof.
  revert buffers. induction keyValues as [|kv kvs IH]; intros buffers; simpl.
  - intros [= <- <-]. by left.
  - destruct (partition (Key kv) nReduce) as [idx|]; [|done].
    destruct (buffers !! Z.to_nat idx) as [buffer|]; [|done].
    destruct (Encode kv) as [e|bytes].
    + intros [= <- <-]. right. by eexists.
    + apply IH.
Qed.

(** When no [Encode] fails, each buffer has received the records of the pairs
    routed to it, in their order, and every pair had a buffer. *)
Lemma encode_loop_ok keyValues nReduce st buffers st1 buffers1 :
  encode_loop keyValues nReduce st buffers = inr (st1, buffers1) →
  status st1 = 0 →
  st1 = st ∧ length buffers1 = length buffers ∧
  (∀ kv, kv ∈ keyValues → ∃ idx,
     partition (Key kv) nReduce = Some idx ∧ (Z.to_nat idx < length buffers)%nat) ∧
  (∀ (i : nat) buffer, buffers !! i = Some buffer → ∃ bytes,
     records (routed nReduce (Z.of_nat i) keyValues) = Some bytes ∧
     buffers1 !! i = Some (buffer +:+ bytes)).
Proof.
  revert buffers. induction keyValues as [|kv kvs IH]; intros buffers; simpl.
  - intros [= <- <-] _. split; [done|]. split; [done|]. split.
    + intros kv Hin. by apply elem_of_nil in Hin.
    + intros i buffer Hi. exists EmptyString. by rewrite string_app_nil_r.
  - destruct (partition (Key kv) nReduce) as [idx|] eqn:Hp; [|done].
    destruct (buffers !! Z.to_nat idx) as [buffer0|] eqn:Hb; [|done].
    destruct (Encode kv) as [e|bytes0] eqn:He; [by intros [= <- <-]|].
    intros Hloop Hst.
    destruct (IH _ Hloop Hst) as (-> & Hlen & Hall & Hbuf).
    rewrite length_insert in Hlen, Hall.
    split; [done|]. split; [done|]. split.
    + intros kv' [->|Hin]%elem_of_cons; [|by apply Hall].
      exists idx. split; [done|]. by eapply lookup_lt_Some.
    + intros i buffer Hi. rewrite routed_cons.
      apply partition_Some in Hp as Hidx.
      destruct (decide (i = Z.to_nat idx)) as [->|Hne].
      * rewrite Z2Nat.id by lia. rewrite decide_True by done.
        assert (buffer = buffer0) as -> by congruence.
        destruct (Hbuf (Z.to_nat idx) (buffer0 +:+ bytes0)) as (bytes & Hrec & Hlook).
        { apply list_lookup_insert_eq. by eapply lookup_lt_Some. }
        rewrite Z2Nat.id in Hrec by lia.
        exists (bytes0 +:+ bytes). simpl. rewrite He, Hrec.
        by rewrite Hlook, string_app_assoc.
      * rewrite decide_False by (rewrite Hp; intros [= ->]; lia).
        apply Hbuf. by rewrite list_lookup_insert_ne.
Qed.

(** *** [doMap]: writing the shards *)

Lemma create_loop_status jobName mapTaskNumber todo i st outFiles w st1 outFiles1 w1 :
  create_loop jobName mapTaskNumber todo i st outFiles w = (st1, outFiles1, w1) →
  st1 = st ∨ ∃ e, st1 = fail e.
Proof.
  revert i st outFiles w. induction todo as [|s todo IH]; intros i st outFiles w; simpl.
  - intros [= <- <- <-]. by left.
  - destruct (create_and_write _ s st w) as [[st0 [file|]] w0] eqn:Hcw.
    + apply create_and_write_Some in Hcw as (-> & _ & _). apply IH.
    + apply create_and_write_None in Hcw as ([e ->] & _). intros [= <- <- <-].
      right. by eexists.
Qed.

Lemma create_loop_ok jobName mapTaskNumber todo i st outFiles w st1 outFiles1 w1 :
  create_loop jobName mapTaskNumber todo i st outFiles w = (st1, outFiles1, w1) →
  status st1 = 0 →
  st1 = st ∧
  w1 = set_files
         (write_shards (write_limit w) jobName mapTaskNumber todo i (files w)) w.
Proof.
  revert i st outFiles w. induction todo as [|s todo IH]; intros i st outFiles w; simpl.
  - intros [= <- <- <-] _. by rewrite set_files_id.
  - destruct (create_and_write _ s st w) as [[st0 [file|]] w0] eqn:Hcw.
    + apply create_and_write_Some in Hcw as (-> & _ & ->).
      intros Hloop Hst. by destruct (IH _ _ _ _ Hloop Hst) as (-> & ->).
    + apply create_and_write_None in Hcw as ([e ->] & _). by intros [= <- <- <-].
Qed.

Lemma write_shards_other limit jobName mapTaskNumber todo i fs p :
  (∀ k, (k < length todo)%nat → reduceName jobName mapTaskNumber (i + Z.of_nat k) ≠ p) →
  write_shards limit jobName mapTaskNumber todo i fs !! p = fs !! p.
Proof.
  revert i fs. induction todo as [|s todo IH]; intros i fs Hp; simpl; [done|].
  rewrite IH.
  - apply lookup_insert_ne. specialize (Hp 0%nat). rewrite Z.add_0_r in Hp.
    apply Hp. simpl. lia.
  - intros k Hk. replace (i + 1 + Z.of_nat k) with (i + Z.of_nat (S k)) by lia.
    apply Hp. simpl. lia.
Qed.

Lemma write_shards_lookup limit jobName mapTaskNumber todo i fs k s :
  (∀ k1 k2, (k1 < length todo)%nat → (k2 < length todo)%nat →
     reduceName jobName mapTaskNumber (i + Z.of_nat k1) =
     reduceName jobName mapTaskNumber (i + Z.of_nat k2) → k1 = k2) →
  todo !! k = Some s →
  write_shards limit jobName mapTaskNumber todo i fs
    !! reduceName jobName mapTaskNumber (i + Z.of_nat k) =
  Some (cut limit (reduceName jobName mapTaskNumber (i + Z.of_nat k)) s).
Proof.
  revert i fs k. induction todo as [|s0 todo IH]; intros i fs k Hinj Hk; [done|].
  destruct k as [|k]; simpl in *.
  - injection Hk as ->. rewrite write_shards_other.
    + rewrite Z.add_0_r. apply lookup_insert_eq.
    + intros k Hk Heq.
      replace (i + 1 + Z.of_nat k) with (i + Z.of_nat (S k)) in Heq by lia.
      apply Hinj in Heq; [done|lia..].
  - replace (i + Z.of_nat (S k)) with (i + 1 + Z.of_nat k) by lia.
    apply IH; [|done]. intros k1 k2 Hk1 Hk2 Heq.
    replace (i + 1 + Z.of_nat k1) with (i + Z.of_nat (S k1)) in Heq by lia.
    replace (i + 1 + Z.of_nat k2) with (i + Z.of_nat (S k2)) in Heq by lia.
    apply Hinj in Heq; lia.
Qed.

Lemma write_shards_keeps limit jobName mapTaskNumber todo i fs p :
  is_Some (fs !! p) →
  is_Some (write_shards limit jobName mapTaskNumber todo i fs !! p).
Proof.
  revert i fs. induction todo as [|s todo IH]; intros i fs Hp; simpl; [done|].
  apply IH. rewrite lookup_insert. by case_decide.
Qed.

Lemma write_shards_exists limit jobName mapTaskNumber todo i fs k :
  (k < length todo)%nat →
  is_Some (write_shards limit jobName mapTaskNumber todo i fs
             !! reduceName jobName mapTaskNumber (i + Z.of_nat k)).
Proof.
  revert i fs k. induction todo as [|s todo IH]; intros i fs k Hk; simpl in *; [lia|].
  destruct k as [|k].
  - apply write_shards_keeps. rewrite Z.add_0_r, lookup_insert_eq. by eexists.
  - replace (i + Z.of_nat (S k)) with (i + 1 + Z.of_nat k) by lia. apply IH. lia.
Qed.

(** *** [doMap]: the whole body *)

Lemma doMap_body_ok jobName mapTaskNumber inFile nReduce mapFunc w st outFiles w1 :
  doMap_body jobName mapTaskNumber inFile nReduce mapFunc w = Returns (st, outFiles) w1 →
  status st = 0 →
  ∃ content buffers,
    os_ReadFile inFile w = inr content ∧ 0 ≤ nReduce ∧
    encode_loop (mapFunc inFile content) nReduce (mkFlags 0 None)
      (replicate (Z.to_nat nReduce) EmptyString) = inr (mkFlags 0 None, buffers) ∧
    w1 = set_files
           (write_shards (write_limit w) jobName mapTaskNumber buffers 0 (files w))
           (log_call (MapCall inFile content) w).
Proof.
  unfold doMap_body.
  destruct (makeslice nReduce w) as [p0|] eqn:Hmk.
  { by destruct (os_ReadFile inFile w). }
  apply makeslice_None in Hmk.
  destruct (os_ReadFile inFile w) as [e|content] eqn:Hread.
  { simpl. by intros [= <- <- <-]. }
  simpl.
  destruct (encode_loop _ _ _ _) as [p|[st1 buffers]] eqn:Henc; [done|].
  destruct (decide (status st1 = 0)) as [Hst1|Hst1]; [|by intros [= <- <- <-]].
  destruct (create_loop _ _ _ _ _ _ _) as [[st2 outFiles2] w2] eqn:Hloop.
  intros [= <- <- <-] Hst.
  destruct (create_loop_ok _ _ _ _ _ _ _ _ _ _ Hloop Hst) as (-> & ->).
  destruct (encode_loop_ok _ _ _ _ _ _ Henc Hst1) as (-> & _).
  exists content, buffers. split; [done|]. split; [lia|]. done.
Qed.

(** [doMap] prints nothing and returns when the body ends with [status] 0. *)
Lemma doMap_success jobName mapTaskNumber inFile nReduce mapFunc w st outFiles w1 :
  doMap_body jobName mapTaskNumber inFile nReduce mapFunc w = Returns (st, outFiles) w1 →
  status st = 0 →
  doMap jobName mapTaskNumber inFile nReduce mapFunc w = Returns tt w1.
Proof.
  intros Hbody Hst. unfold doMap, doMap_handle. rewrite Hbody.
  by rewrite decide_True.
Qed.

(** The shard contents after a successful body. *)
Lemma doMap_body_shards jobName mapTaskNumber inFile nReduce mapFunc w st outFiles w1 :
  doMap_body jobName mapTaskNumber inFile nReduce mapFunc w = Returns (st, outFiles) w1 →
  status st = 0 →
  ∃ content buffers,
    os_ReadFile inFile w = inr content ∧ 0 ≤ nReduce ∧
    length buffers = Z.to_nat nReduce ∧
    (∀ kv, kv ∈ mapFunc inFile content → ∃ idx,
       partition (Key kv) nReduce = Some idx ∧ 0 ≤ idx < nReduce) ∧
    (∀ i, 0 ≤ i < nReduce → ∃ bytes,
       records (routed nReduce i (mapFunc inFile content)) = Some bytes ∧
       buffers !! Z.to_nat i = Some bytes) ∧
    w1 = set_files
           (write_shards (write_limit w) jobName mapTaskNumber buffers 0 (files w))
           (log_call (MapCall inFile content) w).
Proof.
  intros Hbody Hst.
  destruct (doMap_body_ok _ _ _ _ _ _ _ _ _ Hbody Hst)
    as (content & buffers & Hread & Hn & Henc & ->).
  destruct (encode_loop_ok _ _ _ _ _ _ Henc eq_refl) as (_ & Hlen & Hall & Hbuf).
  rewrite length_replicate in Hlen, Hall.
  exists content, buffers. split; [done|]. split; [done|]. split; [done|].
  split; [|split; [|done]].
  - intros kv Hkv. destruct (Hall kv Hkv) as (idx & Hp & Hlt).
    exists idx. split; [done|]. apply partition_Some in Hp. lia.
  - intros i Hi.
    destruct (Hbuf (Z.to_nat i) EmptyString) as (bytes & Hrec & Hlook).
    { apply lookup_replicate. split; [done|lia]. }
    rewrite Z2Nat.id in Hrec by lia. by exists bytes.
Qed.

(** *** Routing partitions the output of the map transform *)

Lemma routed_join_nil nReduce (indices : list Z) :
  mjoin ((λ i, routed nReduce i []) <$> indices) = [].
Proof.
  induction indices as [|i indices IH]; [done|].
  rewrite fmap_cons. change (mjoin (?x :: ?l)) with (x ++ mjoin l).
  by rewrite IH.
Qed.

Lemma routed_join_cons nReduce kv keyValues (n : nat) :
  mjoin ((λ i, routed nReduce i (kv :: keyValues)) <$> seqZ 0 (Z.of_nat n)) ≡ₚ
  match partition (Key kv) nReduce with
  | Some idx =>
      if decide (0 ≤ idx < Z.of_nat n)
      then kv :: mjoin ((λ i, routed nReduce i keyValues) <$> seqZ 0 (Z.of_nat n))
      else mjoin ((λ i, routed nReduce i keyValues) <$> seqZ 0 (Z.of_nat n))
  | None => mjoin ((λ i, routed nReduce i keyValues) <$> seqZ 0 (Z.of_nat n))
  end.
Proof.
  induction n as [|n IH].
  - simpl. destruct (partition (Key kv) nReduce) as [idx|]; [|done].
    by rewrite decide_False by lia.
  - rewrite seqZ_S, !fmap_app, !join_app. simpl. rewrite !app_nil_r, IH.
    rewrite routed_cons, Z.add_0_l.
    destruct (partition (Key kv) nReduce) as [idx|]; [|by rewrite decide_False].
    repeat case_decide; simplify_eq; try lia; try done.
    + symmetry. apply Permutation_middle.
    + exfalso. assert (idx ≠ Z.of_nat n) by congruence. lia.
Qed.

Lemma routed_join nReduce keyValues (n : Z) :
  (∀ kv, kv ∈ keyValues → ∃ idx, partition (Key kv) nReduce = Some idx ∧ 0 ≤ idx < n) →
  mjoin ((λ i, routed nReduce i keyValues) <$> seqZ 0 n) ≡ₚ keyValues.
Proof.
  intros Hall. destruct (decide (0 ≤ n)) as [Hn|Hn].
  2: { destruct keyValues as [|kv kvs]; [by rewrite routed_join_nil|].
       destruct (Hall kv) as (idx & _ & Hidx); [by left|lia]. }
  rewrite <- (Z2Nat.id n) by done. rewrite <- (Z2Nat.id n) in Hall by done.
  induction keyValues as [|kv kvs IH]; [by rewrite routed_join_nil|].
  rewrite routed_join_cons.
  destruct (Hall kv) as (idx & -> & Hidx); [by left|].
  rewrite decide_True by done. constructor. apply IH.
  intros kv' Hkv'. apply Hall. by right.
Qed.

(** *** The shard files of a successful map task *)

Lemma shard_names_distinct_nat jobName mapTaskNumber nReduce (n : nat) :
  shard_names_distinct jobName mapTaskNumber nReduce →
  Z.of_nat n ≤ nReduce →
  ∀ k1 k2, (k1 < n)%nat → (k2 < n)%nat →
    reduceName jobName mapTaskNumber (0 + Z.of_nat k1) =
    reduceName jobName mapTaskNumber (0 + Z.of_nat k2) → k1 = k2.
Proof.
  intros Hinj Hn k1 k2 Hk1 Hk2 Heq. rewrite !Z.add_0_l in Heq.
  apply Hinj in Heq; lia.
Qed.



(** On disk after a successful body: shard [i] holds what arrived of the
    records of the pairs routed to it, and no other path has changed. *)
Lemma doMap_body_disk jobName mapTaskNumber inFile nReduce mapFunc w st outFiles w1 :
  shard_names_distinct jobName mapTaskNumber nReduce →
  doMap_body jobName mapTaskNumber inFile nReduce mapFunc w = Returns (st, outFiles) w1 →
  status st = 0 →
  ∃ content,
    os_ReadFile inFile w = inr content ∧
    (∀ i, 0 ≤ i < nReduce → ∃ bytes,
       records (routed nReduce i (mapFunc inFile content)) = Some bytes ∧
       files w1 !! reduceName jobName mapTaskNumber i =
       Some (delivered w (reduceName jobName mapTaskNumber i) bytes)) ∧
    (∀ p, (∀ i, 0 ≤ i < nReduce → reduceName jobName mapTaskNumber i ≠ p) →
       files w1 !! p = files w !! p).
Proof.
  intros Hinj Hbody Hst.
  destruct (doMap_body_shards _ _ _ _ _ _ _ _ _ Hbody Hst)
    as (content & buffers & Hread & Hn & Hlen & _ & Hbuf & ->).
  exists content. split; [done|]. simpl. split.
  - intros i Hi. destruct (Hbuf i Hi) as (bytes & Hrec & Hlook).
    exists bytes. split; [done|].
    pose proof (write_shards_lookup (write_limit w) jobName mapTaskNumber buffers 0
                  (files w) (Z.to_nat i) bytes) as Hws.
    rewrite Z.add_0_l, Z2Nat.id in Hws by lia. apply Hws; [|done].
    apply (shard_names_distinct_nat _ _ nReduce); [done|lia].
  - intros p Hp. apply write_shards_other. intros k Hk.
    apply Hp. lia.
Qed.

(** C1, as the code has it — conservation in the map task.  When [doMap]
    completes with [status] 0, every pair of the map transform's output has
    one shard index in [0, nReduce), the one [ihash(key) % uint32(nReduce)]
    computes, which is [ihash key mod nReduce] for a shard count below 2^32;
    what is written to shard file [i] is exactly the records of the pairs
    routed to [i], in the order of the transform's output, and the file holds
    what arrived of them: all of them when the write is not cut short; and
    the pairs of all shards together are the transform's output up to
    order. *)
Theorem map_shards_conserve_pairs
    jobName mapTaskNumber inFile nReduce mapFunc w st outFiles w1 :
  shard_names_distinct jobName mapTaskNumber nReduce →
  doMap_body jobName mapTaskNumber inFile nReduce mapFunc w = Returns (st, outFiles) w1 →
  status st = 0 →
  ∃ content,
    os_ReadFile inFile w = inr content ∧
    (∀ kv, kv ∈ mapFunc inFile content → ∃ i,
       partition (Key kv) nReduce = Some i ∧ 0 ≤ i < nReduce ∧
       (nReduce < 2 ^ 32 → i = ihash (Key kv) mod nReduce)) ∧
    (∀ i, 0 ≤ i < nReduce → ∃ bytes,
       records (routed nReduce i (mapFunc inFile content)) = Some bytes ∧
       files w1 !! reduceName jobName mapTaskNumber i =
         Some (delivered w (reduceName jobName mapTaskNumber i) bytes) ∧
       (write_limit w (reduceName jobName mapTaskNumber i) = None →
        files w1 !! reduceName jobName mapTaskNumber i = Some bytes)) ∧
    mjoin ((λ i, routed nReduce i (mapFunc inFile content)) <$> seqZ 0 nReduce)
      ≡ₚ mapFunc inFile content.
Proof.
  intros Hinj Hbody Hst.
  destruct (doMap_body_shards _ _ _ _ _ _ _ _ _ Hbody Hst)
    as (content & buffers & Hread & Hn & Hlen & Hall & _ & _).
  destruct (doMap_body_disk _ _ _ _ _ _ _ _ _ Hinj Hbody Hst)
    as (content' & Hread' & Hdisk & _).
  assert (content' = content) as -> by congruence.
  exists content. split; [done|]. split; [|split].
  - intros kv Hkv. destruct (Hall kv Hkv) as (idx & Hp & Hidx).
    exists idx. split; [done|]. split; [done|]. intros Hsmall.
    apply partition_Some in Hp as (_ & -> & _).
    by rewrite uint32_small by lia.
  - intros i Hi. destruct (Hdisk i Hi) as (bytes & Hrec & Hfile).
    exists bytes. split; [done|]. split; [done|]. intros Hfull.
    rewrite Hfile. unfold delivered. by rewrite cut_no_limit.
  - by apply routed_join.
Qed.




(** The handles in [outFiles] after the loop has run to its end. *)
Lemma create_loop_handles jobName mapTaskNumber todo i st outFiles w st1 outFiles1 w1 :
  0 ≤ i →
  create_loop jobName mapTaskNumber todo i st outFiles w = (st1, outFiles1, w1) →
  status st1 = 0 →
  (Z.to_nat i + length todo ≤ length outFiles)%nat →
  length outFiles1 = length outFiles ∧
  (∀ k, (k < length todo)%nat →
     outFiles1 !! (Z.to_nat i + k)%nat =
     Some (Some (mkFile (reduceName jobName mapTaskNumber (i + Z.of_nat k)) true))) ∧
  (∀ j, (j < Z.to_nat i)%nat → outFiles1 !! j = outFiles !! j).
Proof.
  revert i st outFiles w.
  induction todo as [|s todo IH]; intros i st outFiles w Hi; simpl.
  - intros [= <- <- <-] _ _. split; [done|]. split; [|done]. intros k Hk. lia.
  - destruct (create_and_write _ s st w) as [[st0 [file|]] w0] eqn:Hcw.
    2: { apply create_and_write_None in Hcw as ([e ->] & _). by intros [= <- <- <-]. }
    apply create_and_write_Some in Hcw as (-> & -> & ->).
    intros Hloop Hst Hlen.
    destruct (IH (i + 1) _ _ _ ltac:(lia) Hloop Hst) as (Hlen1 & Hnew & Hold).
    { rewrite length_insert. lia. }
    rewrite length_insert in Hlen1. split; [done|]. split.
    + intros [|k] Hk.
      * rewrite Nat.add_0_r, Z.add_0_r, Hold by lia.
        apply list_lookup_insert_eq. lia.
      * replace (Z.to_nat i + S k)%nat with (Z.to_nat (i + 1) + k)%nat by lia.
        replace (i + Z.of_nat (S k)) with (i + 1 + Z.of_nat k) by lia.
        apply Hnew. lia.
    + intros j Hj. rewrite Hold by lia. apply list_lookup_insert_ne. lia.
Qed.

Lemma doMap_body_handles jobName mapTaskNumber inFile nReduce mapFunc w st outFiles w1 :
  doMap_body jobName mapTaskNumber inFile nReduce mapFunc w = Returns (st, outFiles) w1 →
  status st = 0 →
  length outFiles = Z.to_nat nReduce ∧
  ∀ i, 0 ≤ i < nReduce →
    outFiles !! Z.to_nat i =
    Some (Some (mkFile (reduceName jobName mapTaskNumber i) true)).
Proof.
  unfold doMap_body.
  destruct (makeslice nReduce w) as [p0|] eqn:Hmk.
  { by destruct (os_ReadFile inFile w). }
  apply makeslice_None in Hmk.
  destruct (os_ReadFile inFile w) as [e|content] eqn:Hread.
  { simpl. by intros [= <- <- <-]. }
  simpl.
  destruct (encode_loop _ _ _ _) as [p|[st1 buffers]] eqn:Henc; [done|].
  destruct (decide (status st1 = 0)) as [Hst1|Hst1]; [|by intros [= <- <- <-]].
  destruct (create_loop _ _ _ _ _ _ _) as [[st2 outFiles2] w2] eqn:Hloop.
  intros [= <- <- <-] Hst.
  destruct (encode_loop_ok _ _ _ _ _ _ Henc Hst1) as (_ & Hlen & _).
  rewrite length_replicate in Hlen.
  destruct (create_loop_handles _ _ _ _ _ _ _ _ _ _ ltac:(done) Hloop Hst)
    as (Hlen2 & Hnew & _).
  { rewrite length_replicate. lia. }
  rewrite length_replicate in Hlen2. split; [lia|].
  intros i Hi. specialize (Hnew (Z.to_nat i) ltac:(lia)).
  by rewrite Z2Nat.id in Hnew by lia.
Qed.

(** C10 — every shard is written.  When [doMap] completes with [status] 0
    and [nReduce > 0], it has created one file for every shard index in
    [0, nReduce), which is on disk afterwards; the file of a shard that
    received no pair is empty. *)
Theorem map_creates_every_shard
    jobName mapTaskNumber inFile nReduce mapFunc w st outFiles w1 :
  0 < nReduce →
  doMap_body jobName mapTaskNumber inFile nReduce mapFunc w = Returns (st, outFiles) w1 →
  status st = 0 →
  ∃ content,
    os_ReadFile inFile w = inr content ∧
    length outFiles = Z.to_nat nReduce ∧
    ∀ i, 0 ≤ i < nReduce →
      outFiles !! Z.to_nat i =
        Some (Some (mkFile (reduceName jobName mapTaskNumber i) true)) ∧
      is_Some (files w1 !! reduceName jobName mapTaskNumber i) ∧
      (shard_names_distinct jobName mapTaskNumber nReduce →
       routed nReduce i (mapFunc inFile content) = [] →
       files w1 !! reduceName jobName mapTaskNumber i = Some EmptyString).
Proof.
  intros Hpos Hbody Hst.
  destruct (doMap_body_handles _ _ _ _ _ _ _ _ _ Hbody Hst) as (Hlen & Hhandles).
  destruct (doMap_body_shards _ _ _ _ _ _ _ _ _ Hbody Hst)
    as (content & buffers & Hread & Hn & Hlenb & _ & _ & Hw1).
  exists content. split; [done|]. split; [done|].
  intros i Hi. split; [by apply Hhandles|]. split.
  - rewrite Hw1. simpl.
    replace i with (0 + Z.of_nat (Z.to_nat i)) by lia.
    apply write_shards_exists. lia.
  - intros Hinj Hempty.
    destruct (doMap_body_disk _ _ _ _ _ _ _ _ _ Hinj Hbody Hst)
      as (content' & Hread' & Hdisk & _).
    assert (content' = content) as -> by congruence.
    destruct (Hdisk i Hi) as (bytes & Hrec & Hlook).
    rewrite Hempty in Hrec. simpl in Hrec. injection Hrec as <-.
    rewrite Hlook. unfold delivered. by rewrite cut_empty.
Qed.

(** *** Failure of a map task *)

Lemma flags_ok_status st : flags_ok st → status st ≠ 0 → ∃ e, st = fail e.
Proof. intros [->|He] Hst; [done|done]. Qed.

Lemma create_loop_frame jobName mapTaskNumber todo i st outFiles w st1 outFiles1 w1 :
  create_loop jobName mapTaskNumber todo i st outFiles w = (st1, outFiles1, w1) →
  all_closed outFiles →
  all_closed outFiles1 ∧
  fault w1 = fault w ∧ stdout w1 = stdout w ∧ calls w1 = calls w.
Proof.
  revert i st outFiles w.
  induction todo as [|s todo IH]; intros i st outFiles w; simpl.
  - by intros [= <- <- <-] Hc.
  - destruct (create_and_write _ s st w) as [[st0 [file|]] w0] eqn:Hcw.
    + apply create_and_write_Some in Hcw as (-> & -> & ->).
      intros Hloop Hc. apply IH in Hloop; [done|].
      unfold all_closed. apply Forall_insert; [done|]. by intros file [= <-].
    + apply create_and_write_None in Hcw as (_ & Hf). by intros [= <- <- <-] Hc.
Qed.

(** A handle that was closed cannot be [Stat]ed, so nothing is removed. *)
Lemma cleanup_file_closed outFile st w st1 w1 :
  (∀ file, outFile = Some file → f_closed file = true) →
  cleanup_file outFile st w = (st1, w1) →
  w1 = w ∧ (st1 = st ∨ ∃ e, st1 = fail e).
Proof.
  intros Hc. unfold cleanup_file, File_Stat.
  destruct outFile as [file|]; [|intros [= <- <-]; by auto].
  rewrite (Hc file eq_refl). intros [= <- <-]. split; [done|]. right. by eexists.
Qed.

Lemma cleanup_loop_closed outFiles st w st1 w1 :
  all_closed outFiles →
  cleanup_loop outFiles st w = (st1, w1) →
  w1 = w ∧ (st1 = st ∨ ∃ e, st1 = fail e).
Proof.
  revert st. induction outFiles as [|outFile outFiles IH]; intros st Hc; simpl.
  - intros [= <- <-]. by auto.
  - apply Forall_cons in Hc as [Hc1 Hc].
    destruct (cleanup_file outFile st w) as [st0 w0] eqn:Hcf.
    apply cleanup_file_closed in Hcf as (-> & Hst0); [|done].
    intros Hloop. apply IH in Hloop as (-> & Hst1); [|done].
    split; [done|]. destruct Hst1 as [->|?]; [done|by right].
Qed.

Lemma doMap_body_frame jobName mapTaskNumber inFile nReduce mapFunc w st outFiles w1 :
  doMap_body jobName mapTaskNumber inFile nReduce mapFunc w = Returns (st, outFiles) w1 →
  flags_ok st ∧ all_closed outFiles ∧ fault w1 = fault w ∧ stdout w1 = stdout w.
Proof.
  unfold doMap_body.
  destruct (makeslice nReduce w) as [p0|] eqn:Hmk.
  { by destruct (os_ReadFile inFile w). }
  destruct (os_ReadFile inFile w) as [e|content] eqn:Hread.
  { simpl. intros [= <- <- <-].
    split; [right; by eexists|]. split; [by constructor|done]. }
  simpl.
  destruct (encode_loop _ _ _ _) as [p|[st1 buffers]] eqn:Henc; [done|].
  apply encode_loop_status in Henc.
  destruct (decide (status st1 = 0)) as [Hst1|Hst1].
  - destruct (create_loop _ _ _ _ _ _ _) as [[st2 outFiles2] w2] eqn:Hloop.
    intros [= <- <- <-].
    apply create_loop_status in Hloop as Hst2.
    apply create_loop_frame in Hloop as (Hc & Hf & Ho & _).
    2: { apply Forall_replicate. by intros file [=]. }
    split; [|done]. destruct Hst2 as [->|?]; [|by right].
    destruct Henc as [->|[e ->]]; [by left|done].
  - intros [= <- <- <-]. split; [|split; [by constructor|done]].
    destruct Henc as [->|?]; [by left|by right].
Qed.

(** The error the handler ends with. *)
Lemma handler_error_nil e : handler_error e [] = e.
Proof. done. Qed.

Lemma handler_error_None e outFiles :
  handler_error e (None :: outFiles) = handler_error e outFiles.
Proof. done. Qed.

Lemma handler_error_Some e file outFiles :
  handler_error e (Some file :: outFiles) =
  handler_error (PathError "stat" (f_name file) ErrClosed) outFiles.
Proof.
  unfold handler_error.
  change (omap id (Some file :: outFiles)) with (file :: omap id outFiles).
  rewrite last_cons. destruct (last (omap id outFiles)); reflexivity.
Qed.

Lemma cleanup_loop_error outFiles e w :
  all_closed outFiles →
  cleanup_loop outFiles (fail e) w = (fail (handler_error e outFiles), w).
Proof.
  revert e. induction outFiles as [|[file|] outFiles IH]; intros e Hc.
  - done.
  - apply Forall_cons in Hc as [Hc1 Hc].
    rewrite handler_error_Some. simpl. unfold File_Stat.
    rewrite (Hc1 file eq_refl). by apply IH.
  - apply Forall_cons in Hc as [_ Hc]. rewrite handler_error_None. simpl.
    by apply IH.
Qed.

(** A failed map task removes nothing and prints one line, with the text of
    the error its handler ends with. *)
Lemma doMap_failure_line jobName mapTaskNumber inFile nReduce mapFunc w st outFiles w1 :
  doMap_body jobName mapTaskNumber inFile nReduce mapFunc w = Returns (st, outFiles) w1 →
  status st ≠ 0 →
  ∃ e, st = fail e ∧
       doMap jobName mapTaskNumber inFile nReduce mapFunc w =
       Returns tt (Printf ("Function error [DoMap.doMap]: " +:+
                           Error (handler_error e outFiles) +:+ nl) w1).
Proof.
  intros Hbody Hst. unfold doMap, doMap_handle. rewrite Hbody.
  rewrite decide_False by done.
  apply doMap_body_frame in Hbody as (Hok & Hc & _).
  destruct (flags_ok_status _ Hok Hst) as [e ->].
  exists e. split; [done|]. by rewrite cleanup_loop_error.
Qed.

Lemma doMap_failure jobName mapTaskNumber inFile nReduce mapFunc w st outFiles w1 :
  doMap_body jobName mapTaskNumber inFile nReduce mapFunc w = Returns (st, outFiles) w1 →
  status st ≠ 0 →
  ∃ e, doMap jobName mapTaskNumber inFile nReduce mapFunc w =
       Returns tt (Printf ("Function error [DoMap.doMap]: " +:+ Error e +:+ nl) w1).
Proof.
  intros Hbody Hst.
  destruct (doMap_failure_line _ _ _ _ _ _ _ _ _ Hbody Hst) as (e & _ & Hret).
  by eexists.
Qed.

(** *** [doReduce]: decoding the shards *)

Lemma string_drop_length n s :
  (String.length (string_drop n s) ≤ String.length s)%nat.
Proof.
  revert s. induction n as [|n IH]; intros s; simpl; [done|].
  destruct s as [|c s]; simpl; [done|]. specialize (IH s). lia.
Qed.

(** The loop never runs out of fuel: any fuel from the length of the input
    on gives the same result. *)
Lemma decode_loop_enough_fuel fuel1 fuel2 rest tempKV st keyValues :
  (String.length rest ≤ fuel1)%nat → (String.length rest ≤ fuel2)%nat →
  decode_loop fuel1 rest tempKV st keyValues =
  decode_loop fuel2 rest tempKV st keyValues.
Proof.
  revert fuel2 rest tempKV keyValues.
  induction fuel1 as [|fuel1 IH]; intros fuel2 rest tempKV keyValues H1 H2.
  - destruct rest; [|simpl in H1; lia]. by destruct fuel2.
  - destruct fuel2 as [|fuel2].
    { destruct rest; [done|simpl in H2; lia]. }
    simpl. destruct rest as [|c rest]; [done|].
    destruct (decoder_More (String c rest)); [|done].
    destruct (Decode (String c rest) tempKV) as [e|[kv n]]; [done|].
    pose proof (string_drop_length n rest). simpl in H1, H2.
    apply IH; lia.
Qed.

Lemma decode_loop_status fuel rest tempKV st keyValues st1 keyValues1 :
  decode_loop fuel rest tempKV st keyValues = (st1, keyValues1) →
  st1 = st ∨ ∃ e, st1 = fail e.
Proof.
  revert rest tempKV keyValues.
  induction fuel as [|fuel IH]; intros rest tempKV keyValues; simpl.
  - intros [= <- <-]. by left.
  - destruct (decoder_More rest); [|intros [= <- <-]; by left].
    destruct (Decode rest tempKV) as [e|[kv n]]; [|by apply IH].
    intros [= <- <-]. right. by eexists.
Qed.

(** The pairs the loop appends do not depend on the flags or on the pairs
    read before. *)
Lemma decode_loop_pairs fuel rest tempKV st st0 keyValues :
  (decode_loop fuel rest tempKV st keyValues).2 =
  keyValues ++ (decode_loop fuel rest tempKV st0 []).2.
Proof.
  revert rest tempKV st keyValues.
  induction fuel as [|fuel IH]; intros rest tempKV st keyValues; simpl.
  - by rewrite app_nil_r.
  - destruct (decoder_More rest); [|by rewrite app_nil_r].
    destruct (Decode rest tempKV) as [e|[kv n]]; simpl; [by rewrite app_nil_r|].
    rewrite IH. rewrite (IH _ _ st0 [kv]). by rewrite <- app_assoc.
Qed.

Lemma os_Stat_not_exist fileName w tempErr :
  os_Stat fileName w = Some tempErr → Is_ErrNotExist tempErr = true →
  files w !! fileName = None.
Proof.
  unfold os_Stat. destruct (fault w SysStat fileName); [by intros [= <-]|].
  by destruct (files w !! fileName).
Qed.

Lemma os_Stat_exists fileName w :
  os_Stat fileName w = None → is_Some (files w !! fileName).
Proof.
  unfold os_Stat. destruct (fault w SysStat fileName); [done|].
  destruct (files w !! fileName); [by eexists|done].
Qed.

Lemma os_Open_name fileName w file : os_Open fileName w = inr file → f_name file = fileName.
Proof.
  unfold os_Open. destruct (fault w SysOpen fileName); [done|].
  destruct (files w !! fileName); [|done]. by intros [= <-].
Qed.

Lemma read_loop_status jobName reduceTaskNumber count i st keyValues w st1 keyValues1 :
  read_loop jobName reduceTaskNumber count i st keyValues w = (st1, keyValues1) →
  st1 = st ∨ ∃ e, st1 = fail e.
Proof.
  revert i st keyValues.
  induction count as [|count IH]; intros i st keyValues; simpl.
  - intros [= <- <-]. by left.
  - destruct (os_Stat _ w) as [tempErr|].
    + destruct (Is_ErrNotExist tempErr); [by apply IH|].
      intros [= <- <-]. right. by eexists.
    + destruct (os_Open _ w) as [tempErr|file].
      { intros [= <- <-]. right. by eexists. }
      destruct (decode_file _ st keyValues) as [st0 keyValues0] eqn:Hdec.
      intros Hloop. apply IH in Hloop. apply decode_loop_status in Hdec.
      destruct Hloop as [->|?]; [done|by right].
Qed.

(** When the read ends with [status] 0 it has collected the pairs stored in
    the shards, in ascending map index. *)
Lemma read_loop_ok jobName reduceTaskNumber count i st keyValues w st1 keyValues1 :
  read_loop jobName reduceTaskNumber count i st keyValues w = (st1, keyValues1) →
  status st1 = 0 →
  st1 = st ∧
  keyValues1 =
    keyValues ++ mjoin (stored w jobName reduceTaskNumber <$> seqZ i (Z.of_nat count)).
Proof.
  revert i st keyValues.
  induction count as [|count IH]; intros i st keyValues.
  - simpl. intros [= <- <-] _. by rewrite app_nil_r.
  - rewrite seqZ_cons by lia.
    replace (Z.pred (Z.of_nat (S count))) with (Z.of_nat count) by lia.
    rewrite fmap_cons. change (mjoin (?x :: ?l)) with (x ++ mjoin l).
    simpl. unfold stored at 1.
    destruct (os_Stat _ w) as [tempErr|] eqn:Hstat.
    + destruct (Is_ErrNotExist tempErr) eqn:Hne; [|by intros [= <- <-]].
      rewrite (os_Stat_not_exist _ _ _ Hstat Hne). apply IH.
    + destruct (os_Open _ w) as [tempErr|file] eqn:Hopen; [by intros [= <- <-]|].
      rewrite (os_Open_name _ _ _ Hopen).
      apply os_Stat_exists in Hstat as [content Hcontent]. rewrite Hcontent. simpl.
      destruct (decode_file content st keyValues) as [st0 keyValues0] eqn:Hdec.
      intros Hloop Hst. destruct (IH _ _ _ Hloop Hst) as (-> & ->).
      apply decode_loop_status in Hdec as Hst0.
      assert (keyValues0 = (decode_file content st keyValues).2) as ->
        by by rewrite Hdec.
      unfold decode_file.
      rewrite (decode_loop_pairs _ _ _ st (mkFlags 0 None)), <- app_assoc.
      split; [|done]. destruct Hst0 as [->|[e ->]]; done.
Qed.

(** *** [doReduce]: grouping *)

Lemma values_of_snoc key keyValues kv :
  values_of key (keyValues ++ [kv]) =
  values_of key keyValues ++ (if decide (Key kv = key) then [Value kv] else []).
Proof.
  unfold values_of. rewrite filter_app, fmap_app. f_equal.
  rewrite filter_cons, filter_nil. by case_decide.
Qed.

Lemma group_snoc keyValues kv :
  group (keyValues ++ [kv]) = group_step (group keyValues) kv.
Proof. unfold group. by rewrite foldl_snoc. Qed.

(** The grouping map sends a key to its values, in the order of the pairs,
    and has no entry for a key that no pair has. *)
Lemma group_lookup keyValues key :
  group keyValues !! key =
  match values_of key keyValues with
  | [] => None
  | values => Some values
  end.
Proof.
  induction keyValues as [|kv keyValues IH] using rev_ind; [done|].
  rewrite group_snoc, values_of_snoc. unfold group_step.
  destruct (decide (Key kv = key)) as [->|Hne].
  - rewrite lookup_insert_eq, IH.
    by destruct (values_of _ keyValues).
  - rewrite lookup_insert_ne by done. by rewrite IH, app_nil_r.
Qed.

Lemma values_of_nil_iff key keyValues :
  values_of key keyValues = [] ↔ key ∉ Key <$> keyValues.
Proof.
  unfold values_of. induction keyValues as [|kv keyValues IH]; simpl.
  - split; [intros _ Hin; by apply elem_of_nil in Hin|done].
  - rewrite filter_cons, not_elem_of_cons. case_decide; simpl.
    + split; [done|]. by intros [? _].
    + rewrite IH. split; [done|]. by intros [_ ?].
Qed.

Lemma group_lookup_Some keyValues key values :
  group keyValues !! key = Some values ↔
  key ∈ Key <$> keyValues ∧ values = values_of key keyValues.
Proof.
  rewrite group_lookup.
  destruct (values_of key keyValues) as [|v vs] eqn:Hv.
  - apply values_of_nil_iff in Hv. split; [done|]. by intros [? _].
  - assert (key ∈ Key <$> keyValues) as Hin.
    { destruct (decide (key ∈ Key <$> keyValues)) as [|Hn]; [done|].
      apply values_of_nil_iff in Hn. congruence. }
    split; [by intros [= <-]|]. by intros [_ ->].
Qed.

(** *** [doReduce]: the transform, the encoding and the merge file *)

Lemma log_calls_nil w : log_calls [] w = w.
Proof. destruct w. unfold log_calls. simpl. by rewrite app_nil_r. Qed.

Lemma log_calls_cons c cs w : log_calls cs (log_call c w) = log_calls (c :: cs) w.
Proof. unfold log_calls, log_call. simpl. by rewrite <- app_assoc. Qed.

Lemma reduce_loop_status reduceFunc entries st newKeyValues w st1 newKeyValues1 w1 :
  reduce_loop reduceFunc entries st newKeyValues w = (st1, newKeyValues1, w1) →
  (st1 = st ∨ st1 = fail (ErrorString "Reduce Function Error")) ∧
  files w1 = files w ∧ fault w1 = fault w ∧ stdout w1 = stdout w.
Proof.
  revert newKeyValues w.
  induction entries as [|[key value] entries IH]; intros newKeyValues w; simpl.
  - intros [= <- <- <-]. by auto.
  - case_decide; [intros [= <- <- <-]; by auto|].
    intros Hloop. by apply IH in Hloop.
Qed.

(** The loop ends with [status] 0 exactly when no result is ["error"]; it has
    then called the transform on every entry and kept every result. *)
Lemma reduce_loop_ok reduceFunc entries st newKeyValues w :
  Forall (λ entry, reduceFunc entry.1 entry.2 ≠ "error") entries →
  reduce_loop reduceFunc entries st newKeyValues w =
  (st, newKeyValues ++ (reduced reduceFunc <$> entries),
   log_calls (reduce_call <$> entries) w).
Proof.
  revert newKeyValues w.
  induction entries as [|[key value] entries IH]; intros newKeyValues w Hall; simpl.
  - by rewrite app_nil_r, log_calls_nil.
  - apply Forall_cons in Hall as [Hne Hall]. simpl in Hne.
    rewrite decide_False by done. rewrite IH by done.
    by rewrite <- app_assoc, log_calls_cons.
Qed.

Lemma reduce_loop_error reduceFunc entries st newKeyValues w :
  Exists (λ entry, reduceFunc entry.1 entry.2 = "error") entries →
  (reduce_loop reduceFunc entries st newKeyValues w).1.1 =
  fail (ErrorString "Reduce Function Error").
Proof.
  revert newKeyValues w.
  induction entries as [|[key value] entries IH]; intros newKeyValues w Hex; simpl.
  - by apply Exists_nil in Hex.
  - case_decide; [done|]. apply Exists_cons in Hex as [Hex|Hex]; [done|].
    by apply IH.
Qed.

Lemma reduce_loop_inv reduceFunc entries st newKeyValues w st1 newKeyValues1 w1 :
  reduce_loop reduceFunc entries st newKeyValues w = (st1, newKeyValues1, w1) →
  status st1 = 0 →
  Forall (λ entry, reduceFunc entry.1 entry.2 ≠ "error") entries.
Proof.
  intros Hloop Hst.
  destruct (decide (Exists (λ entry, reduceFunc entry.1 entry.2 = "error") entries))
    as [Hex|Hnex].
  - apply (reduce_loop_error _ _ st newKeyValues w) in Hex.
    rewrite Hloop in Hex. simpl in Hex. by subst.
  - by apply not_Exists_Forall in Hnex; [|intros entry; apply _].
Qed.

Lemma encode_all_ok newKeyValues st buffer st1 buffer1 :
  encode_all newKeyValues st buffer = (st1, buffer1) →
  status st1 = 0 →
  st1 = st ∧ ∃ bytes, records newKeyValues = Some bytes ∧ buffer1 = buffer +:+ bytes.
Proof.
  revert buffer. induction newKeyValues as [|kv kvs IH]; intros buffer; simpl.
  - intros [= <- <-] _. split; [done|]. exists EmptyString.
    by rewrite string_app_nil_r.
  - destruct (Encode kv) as [e|bytes0]; [by intros [= <- <-]|].
    intros Hall Hst. destruct (IH _ Hall Hst) as (-> & bytes & -> & ->).
    split; [done|]. exists (bytes0 +:+ bytes). by rewrite string_app_assoc.
Qed.

Lemma encode_all_status newKeyValues st buffer st1 buffer1 :
  encode_all newKeyValues st buffer = (st1, buffer1) →
  st1 = st ∨ ∃ e, st1 = fail e.
Proof.
  revert buffer. induction newKeyValues as [|kv kvs IH]; intros buffer; simpl.
  - intros [= <- <-]. by left.
  - destruct (Encode kv) as [e|bytes0]; [|by apply IH].
    intros [= <- <-]. right. by eexists.
Qed.

Lemma seqZ_to_nat m n : seqZ m (Z.of_nat (Z.to_nat n)) = seqZ m n.
Proof. unfold seqZ. by rewrite Nat2Z.id. Qed.

(** The body of a reduce task that ends with [status] 0. *)
Lemma doReduce_body_ok jobName reduceTaskNumber nMap reduceFunc w st outFile w1 :
  doReduce_body jobName reduceTaskNumber nMap reduceFunc w = (st, outFile, w1) →
  status st = 0 →
  let entries := range_map (group (input_pairs w jobName reduceTaskNumber nMap)) in
  read_loop jobName reduceTaskNumber (Z.to_nat nMap) 0 (mkFlags 0 None) [] w =
    (mkFlags 0 None, input_pairs w jobName reduceTaskNumber nMap) ∧
  Forall (λ entry, reduceFunc entry.1 entry.2 ≠ "error") entries ∧
  ∃ bytes,
    records (reduced reduceFunc <$> entries) = Some bytes ∧
    w1 = set_files (<[mergeName jobName reduceTaskNumber :=
                        delivered w (mergeName jobName reduceTaskNumber) bytes]> (files w))
           (log_calls (reduce_call <$> entries) w).
Proof.
  unfold doReduce_body.
  destruct (read_loop _ _ _ _ _ _ _) as [st1 keyValues] eqn:Hread.
  destruct (decide (status st1 = 0)) as [Hst1|Hst1].
  2: { simpl. rewrite !decide_False by done. by intros [= <- <- <-]. }
  destruct (read_loop_ok _ _ _ _ _ _ _ _ _ Hread Hst1) as (-> & ->).
  rewrite seqZ_to_nat. simpl.
  fold (input_pairs w jobName reduceTaskNumber nMap).
  destruct (reduce_loop _ _ _ _ _) as [[st2 newKeyValues] w2] eqn:Hred.
  destruct (decide (status st2 = 0)) as [Hst2|Hst2].
  2: { simpl. rewrite decide_False by done. by intros [= <- <- <-]. }
  apply reduce_loop_inv in Hred as Hall; [|done].
  rewrite reduce_loop_ok in Hred by done. injection Hred as <- <- <-.
  destruct (encode_all _ _ _) as [st3 buffer] eqn:Henc.
  destruct (decide (status st3 = 0)) as [Hst3|Hst3].
  2: { by intros [= <- <- <-]. }
  destruct (encode_all_ok _ _ _ _ _ Henc Hst3) as (-> & bytes & Hrec & ->).
  rewrite ?decide_True by done.
  destruct (create_and_write _ _ _ _) as [[st4 outFile4] w4] eqn:Hcw.
  intros [= <- <- <-] Hst.
  destruct outFile4 as [file|].
  2: { apply create_and_write_None in Hcw as ([e ->] & _). done. }
  apply create_and_write_Some in Hcw as (_ & _ & ->).
  split; [done|]. split; [done|]. by exists bytes.
Qed.

Lemma doReduce_success jobName reduceTaskNumber nMap reduceFunc w st outFile w1 :
  doReduce_body jobName reduceTaskNumber nMap reduceFunc w = (st, outFile, w1) →
  status st = 0 →
  doReduce jobName reduceTaskNumber nMap reduceFunc w = Returns tt w1.
Proof.
  intros Hbody Hst. unfold doReduce, doReduce_handle. rewrite Hbody.
  by rewrite decide_True.
Qed.

(** The entries a valid [range] enumerates. *)
Lemma range_entries keyValues :
  range_enumerates →
  let entries := range_map (group keyValues) in
  NoDup entries.*1 ∧
  (∀ key, key ∈ entries.*1 ↔ key ∈ Key <$> keyValues) ∧
  (∀ key values, (key, values) ∈ entries → values = values_of key keyValues).
Proof.
  intros Hrange. simpl. specialize (Hrange (group keyValues)).
  split; [|split].
  - rewrite Hrange. apply NoDup_fst_map_to_list.
  - intros key. rewrite Hrange. rewrite list_elem_of_fmap. split.
    + intros ([key' values] & -> & Hin). simpl.
      apply elem_of_map_to_list in Hin. by apply group_lookup_Some in Hin as [? _].
    + intros Hin. exists (key, values_of key keyValues). split; [done|].
      apply elem_of_map_to_list. by apply group_lookup_Some.
  - intros key values Hin. rewrite Hrange in Hin.
    apply elem_of_map_to_list in Hin. by apply group_lookup_Some in Hin as [_ ?].
Qed.

(** *** Reading back what the encoder wrote *)






(** *** Failure of a reduce task *)

Lemma doReduce_body_frame jobName reduceTaskNumber nMap reduceFunc w st outFile w1 :
  doReduce_body jobName reduceTaskNumber nMap reduceFunc w = (st, outFile, w1) →
  flags_ok st ∧ (∀ file, outFile = Some file → f_closed file = true) ∧
  fault w1 = fault w ∧ stdout w1 = stdout w.
Proof.
  unfold doReduce_body.
  destruct (read_loop _ _ _ _ _ _ _) as [st1 keyValues] eqn:Hread.
  apply read_loop_status in Hread.
  assert (flags_ok st1) as Hok1 by (destruct Hread as [->|?]; [by left|by right]).
  destruct (decide (status st1 = 0)) as [Hst1|Hst1].
  2: { simpl. rewrite !decide_False by done. by intros [= <- <- <-]. }
  destruct (reduce_loop _ _ _ _ _) as [[st2 newKeyValues] w2] eqn:Hred.
  apply reduce_loop_status in Hred as (Hst2 & _ & Hf2 & Ho2).
  assert (flags_ok st2) as Hok2.
  { destruct Hst2 as [-> | ->]; [done|]. right. by eexists. }
  destruct (decide (status st2 = 0)) as [Hst2'|Hst2'].
  2: { simpl. rewrite decide_False by done. by intros [= <- <- <-]. }
  destruct (encode_all _ _ _) as [st3 buffer] eqn:Henc.
  apply encode_all_status in Henc.
  assert (flags_ok st3) as Hok3 by (destruct Henc as [->|?]; [done|by right]).
  destruct (decide (status st3 = 0)) as [Hst3|Hst3].
  2: { by intros [= <- <- <-]. }
  rewrite ?decide_True by done.
  destruct (create_and_write _ _ _ _) as [[st4 [file|]] w4] eqn:Hcw.
  - apply create_and_write_Some in Hcw as (-> & -> & ->).
    intros [= <- <- <-]. split; [done|]. split; [by intros file [= <-]|done].
  - apply create_and_write_None in Hcw as (Hst4 & Hf4 & Ho4 & _).
    intros [= <- <- <-]. split; [by right|]. split; [done|]. split; congruence.
Qed.

(** A reduce task that fails has no handle to clean up. *)
Lemma doReduce_body_outFile jobName reduceTaskNumber nMap reduceFunc w st file w1 :
  doReduce_body jobName reduceTaskNumber nMap reduceFunc w = (st, Some file, w1) →
  status st = 0.
Proof.
  unfold doReduce_body.
  destruct (read_loop _ _ _ _ _ _ _) as [st1 keyValues] eqn:Hread.
  destruct (decide (status st1 = 0)) as [Hst1|Hst1].
  2: { simpl. rewrite !decide_False by done. by intros [= <- <- <-]. }
  destruct (reduce_loop _ _ _ _ _) as [[st2 newKeyValues] w2] eqn:Hred.
  destruct (decide (status st2 = 0)) as [Hst2'|Hst2'].
  2: { simpl. rewrite decide_False by done. by intros [= <- <- <-]. }
  destruct (encode_all _ _ _) as [st3 buffer] eqn:Henc.
  destruct (decide (status st3 = 0)) as [Hst3|Hst3].
  2: { by intros [= <- <- <-]. }
  rewrite ?decide_True by done.
  destruct (create_and_write _ _ _ _) as [[st4 [file4|]] w4] eqn:Hcw.
  - apply create_and_write_Some in Hcw as (-> & _ & _). by intros [= <- _ _].
  - by intros [= _ _].
Qed.

(** A failed reduce task removes nothing and prints one line, with the text
    of the error its body ended with. *)
Lemma doReduce_failure_line jobName reduceTaskNumber nMap reduceFunc w st outFile w1 :
  doReduce_body jobName reduceTaskNumber nMap reduceFunc w = (st, outFile, w1) →
  status st ≠ 0 →
  ∃ e, st = fail e ∧ outFile = None ∧
       doReduce jobName reduceTaskNumber nMap reduceFunc w =
       Returns tt (Printf ("Function error [DoReduce.doReduce]: " +:+ Error e +:+ nl) w1).
Proof.
  intros Hbody Hst. unfold doReduce, doReduce_handle. rewrite Hbody.
  rewrite decide_False by done.
  destruct outFile as [file|].
  { by apply doReduce_body_outFile in Hbody. }
  apply doReduce_body_frame in Hbody as (Hok & Hc & _).
  destruct (flags_ok_status _ Hok Hst) as [e ->]. by exists e.
Qed.

Lemma doReduce_failure jobName reduceTaskNumber nMap reduceFunc w st outFile w1 :
  doReduce_body jobName reduceTaskNumber nMap reduceFunc w = (st, outFile, w1) →
  status st ≠ 0 →
  ∃ e, doReduce jobName reduceTaskNumber nMap reduceFunc w =
       Returns tt (Printf ("Function error [DoReduce.doReduce]: " +:+ Error e +:+ nl) w1).
Proof.
  intros Hbody Hst. unfold doReduce, doReduce_handle. rewrite Hbody.
  rewrite decide_False by done.
  apply doReduce_body_frame in Hbody as (Hok & Hc & _).
  destruct (flags_ok_status _ Hok Hst) as [e ->].
  destruct (cleanup_file outFile (fail e) w1) as [st1 w2] eqn:Hcl.
  apply cleanup_file_closed in Hcl as (-> & Hst1); [|done].
  destruct Hst1 as [->|[e' ->]]; by eexists.
Qed.

(** C7, as the code has it — failures are printed, not returned.  [doMap]
    and [doReduce] return nothing.  An invocation that ends with [status] 0
    prints nothing; one that fails prints the single line
    [Function error [DoMap.doMap]: <err>] (or [[DoReduce.doReduce]]) to the
    standard output and returns as a successful one does.  The error of the
    line is the one the body ended with ([st = fail e]); for [doMap], when
    shard files had been created before the failure, it is instead the error
    of [Stat] on the last of their closed handles ([handler_error]).  A
    failed [doReduce] has no handle to clean up. *)
Theorem failure_is_printed_not_returned :
  (∀ jobName mapTaskNumber inFile nReduce mapFunc w st outFiles w1,
     doMap_body jobName mapTaskNumber inFile nReduce mapFunc w = Returns (st, outFiles) w1 →
     stdout w1 = stdout w ∧
     ((status st = 0 ∧
       doMap jobName mapTaskNumber inFile nReduce mapFunc w = Returns tt w1) ∨
      (status st ≠ 0 ∧ ∃ e,
       st = fail e ∧
       doMap jobName mapTaskNumber inFile nReduce mapFunc w =
       Returns tt (Printf (error_line "DoMap.doMap" (handler_error e outFiles)) w1)))) ∧
  (∀ jobName reduceTaskNumber nMap reduceFunc w st outFile w1,
     doReduce_body jobName reduceTaskNumber nMap reduceFunc w = (st, outFile, w1) →
     stdout w1 = stdout w ∧
     ((status st = 0 ∧
       doReduce jobName reduceTaskNumber nMap reduceFunc w = Returns tt w1) ∨
      (status st ≠ 0 ∧ ∃ e,
       st = fail e ∧ outFile = None ∧
       doReduce jobName reduceTaskNumber nMap reduceFunc w =
       Returns tt (Printf (error_line "DoReduce.doReduce" e) w1)))).
Proof.
  split.
  - intros jobName mapTaskNumber inFile nReduce mapFunc w st outFiles w1 Hbody.
    split; [by apply doMap_body_frame in Hbody as (_ & _ & _ & ?)|].
    destruct (decide (status st = 0)) as [Hst|Hst].
    + left. split; [done|]. by eapply doMap_success.
    + right. split; [done|]. by eapply doMap_failure_line.
  - intros jobName reduceTaskNumber nMap reduceFunc w st outFile w1 Hbody.
    split; [by apply doReduce_body_frame in Hbody as (_ & _ & _ & ?)|].
    destruct (decide (status st = 0)) as [Hst|Hst].
    + left. split; [done|]. by eapply doReduce_success.
    + right. split; [done|]. by eapply doReduce_failure_line.
Qed.

(** C6, as the code has it — the shard index.  For a shard count above 0
    the index [ihash(key) % uint32(nReduce)], whenever it is computed, lies
    in [0, nReduce); for a shard count above 0 and below 2^32 it is computed
    and is [ihash key mod nReduce]. *)
Theorem partition_in_range key nReduce :
  0 < nReduce →
  (∀ idx, partition key nReduce = Some idx → 0 ≤ idx < nReduce) ∧
  (nReduce < 2 ^ 32 → partition key nReduce = Some (ihash key mod nReduce)).
Proof.
  intros Hpos. split.
  - intros idx Hp. apply partition_Some in Hp as (_ & _ & Hidx).
    pose proof (uint32_le nReduce). lia.
  - intros Hsmall. unfold partition. rewrite uint32_small by lia.
    by rewrite decide_False by lia.
Qed.

(** C4, as the code has it — the failure signal of the reduce transform is
    the result ["error"].  Results other than ["error"] are all kept as the
    values of their keys; when the transform returns ["error"] for a key of
    the grouping map the task is aborted: [doReduce] prints
    [Reduce Function Error] and leaves the files as they were. *)
Theorem reduce_failure_is_the_error_string :
  (∀ reduceFunc entries newKeyValues w,
     Forall (λ entry, reduceFunc entry.1 entry.2 ≠ "error") entries →
     reduce_loop reduceFunc entries (mkFlags 0 None) newKeyValues w =
     (mkFlags 0 None, newKeyValues ++ (reduced reduceFunc <$> entries),
      log_calls (reduce_call <$> entries) w)) ∧
  (∀ jobName reduceTaskNumber nMap reduceFunc w keyValues key,
     range_enumerates →
     read_loop jobName reduceTaskNumber (Z.to_nat nMap) 0 (mkFlags 0 None) [] w =
       (mkFlags 0 None, keyValues) →
     key ∈ Key <$> keyValues →
     reduceFunc key (values_of key keyValues) = "error" →
     ∃ w1,
       doReduce jobName reduceTaskNumber nMap reduceFunc w = Returns tt w1 ∧
       files w1 = files w ∧
       stdout w1 =
         stdout w ++ ["Function error [DoReduce.doReduce]: Reduce Function Error" +:+ nl]).
Proof.
  split; [intros; by apply reduce_loop_ok|].
  intros jobName reduceTaskNumber nMap reduceFunc w keyValues key Hrange Hread Hkey Herr.
  assert (Exists (λ entry, reduceFunc entry.1 entry.2 = "error")
            (range_map (group keyValues))) as Hex.
  { apply Exists_exists. exists (key, values_of key keyValues). split; [|done].
    rewrite (Hrange (group keyValues)).
    apply elem_of_map_to_list. by apply group_lookup_Some. }
  unfold doReduce, doReduce_body. rewrite Hread. simpl.
  destruct (reduce_loop _ _ _ _ _) as [[st2 newKeyValues] w2] eqn:Hred.
  apply (reduce_loop_error _ _ (mkFlags 0 None) [] w) in Hex.
  rewrite Hred in Hex. simpl in Hex. subst st2.
  apply reduce_loop_status in Hred as (_ & Hfiles & _ & Hout).
  simpl. exists (Printf ("Function error [DoReduce.doReduce]: Reduce Function Error" +:+ nl) w2).
  split; [done|]. split; [done|]. simpl. by rewrite Hout.
Qed.

(** *** An absent shard *)

Lemma read_loop_absent jobName reduceTaskNumber count i st keyValues w :
  fault w SysStat (reduceName jobName i reduceTaskNumber) = None →
  files w !! reduceName jobName i reduceTaskNumber = None →
  read_loop jobName reduceTaskNumber (S count) i st keyValues w =
  read_loop jobName reduceTaskNumber count (i + 1) st keyValues w.
Proof. intros Hfault Hfile. simpl. unfold os_Stat. by rewrite Hfault, Hfile. Qed.

Lemma read_loop_present jobName reduceTaskNumber count i st keyValues w content :
  fault w SysStat (reduceName jobName i reduceTaskNumber) = None →
  fault w SysOpen (reduceName jobName i reduceTaskNumber) = None →
  files w !! reduceName jobName i reduceTaskNumber = Some content →
  read_loop jobName reduceTaskNumber (S count) i st keyValues w =
  let '(st1, keyValues1) := decode_file content st keyValues in
  read_loop jobName reduceTaskNumber count (i + 1) st1 keyValues1 w.
Proof.
  intros Hstat Hopen Hfile. simpl. unfold os_Stat, os_Open.
  rewrite Hstat, Hopen, Hfile. simpl. by rewrite Hfile.
Qed.

Lemma create_and_write_no_fault fileName encodingString st w :
  fault w SysStat fileName = None →
  fault w SysRemove fileName = None →
  fault w SysCreate fileName = None →
  create_and_write fileName encodingString st w =
  (st, Some (mkFile fileName true),
   set_files (<[fileName := delivered w fileName encodingString]> (files w)) w).
Proof.
  intros Hstat Hremove Hcreate.
  destruct (create_and_write fileName encodingString st w) as [[st1 [file|]] w1] eqn:Hcw.
  - by apply create_and_write_Some in Hcw as (-> & -> & ->).
  - exfalso. revert Hcw.
    unfold create_and_write, remove_if_exists, os_Stat, os_Remove, os_Create.
    rewrite Hstat, Hremove. destruct (files w !! fileName); simpl; by rewrite Hcreate.
Qed.

Lemma range_singleton key values :
  range_enumerates → range_map {[key := values]} = [(key, values)].
Proof.
  intros Hrange. apply Permutation_singleton_r.
  by rewrite (Hrange {[key := values]}), map_to_list_singleton.
Qed.

(** C8 — an absent shard.  A shard file that is not on disk is passed over:
    it adds no pair and does not fail the task.  With [nMap = 2], shard 0
    absent and shard 1 holding the one pair [("a", "1")], the read ends with
    [status] 0 and that pair, the grouping map is [a -> ["1"]], and the task
    completes: the transform is called on [a] with [["1"]] and the merge file
    holds what the disk took of the record of its result, all of it when the
    write is not cut short. *)
Theorem reduce_tolerates_absent_shard :
  (∀ jobName reduceTaskNumber count i st keyValues w,
     fault w SysStat (reduceName jobName i reduceTaskNumber) = None →
     files w !! reduceName jobName i reduceTaskNumber = None →
     stored w jobName reduceTaskNumber i = [] ∧
     read_loop jobName reduceTaskNumber (S count) i st keyValues w =
     read_loop jobName reduceTaskNumber count (i + 1) st keyValues w) ∧
  (∀ jobName reduceTaskNumber reduceFunc w content bytes,
     range_enumerates →
     fault w SysStat (reduceName jobName 0 reduceTaskNumber) = None →
     files w !! reduceName jobName 0 reduceTaskNumber = None →
     fault w SysStat (reduceName jobName 1 reduceTaskNumber) = None →
     fault w SysOpen (reduceName jobName 1 reduceTaskNumber) = None →
     files w !! reduceName jobName 1 reduceTaskNumber = Some content →
     decode_file content (mkFlags 0 None) [] = (mkFlags 0 None, [KV "a" "1"]) →
     reduceFunc "a" ["1"] ≠ "error" →
     Encode (KV "a" (reduceFunc "a" ["1"])) = inr bytes →
     fault w SysStat (mergeName jobName reduceTaskNumber) = None →
     fault w SysRemove (mergeName jobName reduceTaskNumber) = None →
     fault w SysCreate (mergeName jobName reduceTaskNumber) = None →
     read_loop jobName reduceTaskNumber 2 0 (mkFlags 0 None) [] w =
       (mkFlags 0 None, [KV "a" "1"]) ∧
     group [KV "a" "1"] = {[ "a" := ["1"] ]} ∧
     ∃ w1,
       doReduce jobName reduceTaskNumber 2 reduceFunc w = Returns tt w1 ∧
       stdout w1 = stdout w ∧
       calls w1 = calls w ++ [ReduceCall "a" ["1"]] ∧
       files w1 !! mergeName jobName reduceTaskNumber =
         Some (delivered w (mergeName jobName reduceTaskNumber) bytes) ∧
       (write_limit w (mergeName jobName reduceTaskNumber) = None →
        files w1 !! mergeName jobName reduceTaskNumber = Some bytes)).
Proof.
  split.
  - intros jobName reduceTaskNumber count i st keyValues w Hfault Hfile.
    split; [unfold stored; by rewrite Hfile|by apply read_loop_absent].
  - intros jobName reduceTaskNumber reduceFunc w content bytes Hrange
      Hstat0 Hfile0 Hstat1 Hopen1 Hfile1 Hdec Hne Henc Hmstat Hmremove Hmcreate.
    assert (read_loop jobName reduceTaskNumber 2 0 (mkFlags 0 None) [] w =
            (mkFlags 0 None, [KV "a" "1"])) as Hread.
    { rewrite read_loop_absent by done.
      rewrite (read_loop_present _ _ _ _ _ _ _ content) by done.
      by rewrite Hdec. }
    assert (group [KV "a" "1"] = {[ "a" := ["1"] ]}) as Hgroup by done.
    split; [done|]. split; [done|].
    unfold doReduce, doReduce_body.
    change (Z.to_nat 2) with 2%nat. rewrite Hread. simpl.
    rewrite Hgroup, range_singleton by done.
    rewrite reduce_loop_ok by (constructor; [done|constructor]).
    simpl. unfold reduced. simpl. rewrite Henc. simpl.
    rewrite create_and_write_no_fault by done.
    unfold doReduce_handle. simpl. eexists. split; [done|].
    split; [done|]. split; [done|]. simpl. rewrite lookup_insert_eq.
    split; [done|]. intros Hlim. unfold delivered. simpl. by rewrite cut_no_limit.
Qed.

End Properties.

(** ** The concrete instance at work *)

Import Sample.

Lemma sample_range_enumerates : @range_enumerates sample.
Proof. by intros m. Qed.

Lemma sample_reversed_range_enumerates : @range_enumerates sample_reversed.
Proof. intros m. simpl. apply reverse_Permutation. Qed.

Lemma sample_shard_names_distinct jobName mapTaskNumber nReduce :
  @shard_names_distinct sample jobName mapTaskNumber nReduce.
Proof.
  intros i j _ _ Heq. simpl in Heq. unfold sample_reduceName in Heq.
  repeat apply String.app_inj in Heq. by apply (inj pretty) in Heq.
Qed.

(** *** The sample codec reads back what it writes *)












(** The test vectors of the description: grouping order and the count of
    values, from shard 0 = [(a,1)] and shard 1 = [(a,2); (b,3)]. *)
Example grouping_order :
  group (@input_pairs sample two_shards "job" 0 2) = {[ "a" := ["1"; "2"]; "b" := ["3"] ]}.
Proof. by vm_compute. Qed.

Example end_to_end_count :
  ∃ w1, @doReduce sample "job" 0 2 wc_reduceFunc two_shards = Returns tt w1 ∧
        files w1 !! "mrtmp.job-res-0" = Some (record "a" "2" +:+ record "b" "1").
Proof. eexists. split; [by vm_compute|by vm_compute]. Qed.

Lemma map_shards_conserve_pairs_witness :
  match @doMap_body sample "job" 0 "in.txt" 3 wc_mapFunc wc_input with
  | Returns (st, _) w1 =>
      status st = 0 ∧
      ∃ content,
        os_ReadFile "in.txt" wc_input = inr content ∧
        (∀ kv, kv ∈ wc_mapFunc "in.txt" content → ∃ i,
           partition (Key kv) 3 = Some i ∧ 0 ≤ i < 3 ∧
           (3 < 2 ^ 32 → i = ihash (Key kv) mod 3)) ∧
        (∀ i, 0 ≤ i < 3 → ∃ bytes,
           @records sample (routed 3 i (wc_mapFunc "in.txt" content)) = Some bytes ∧
           files w1 !! @reduceName sample "job" 0 i =
             Some (delivered wc_input (@reduceName sample "job" 0 i) bytes) ∧
           (write_limit wc_input (@reduceName sample "job" 0 i) = None →
            files w1 !! @reduceName sample "job" 0 i = Some bytes)) ∧
        mjoin ((λ i, routed 3 i (wc_mapFunc "in.txt" content)) <$> seqZ 0 3)
          ≡ₚ wc_mapFunc "in.txt" content
  | Panics _ _ => False
  end.
Proof.
  pose proof (@map_shards_conserve_pairs sample "job" 0 "in.txt" 3 wc_mapFunc
                wc_input) as Hthm.
  destruct (@doMap_body sample "job" 0 "in.txt" 3 wc_mapFunc wc_input)
    as [[st outFiles] w1|p w1] eqn:Hbody; [|by vm_compute in Hbody].
  assert (status st = 0) as Hst.
  { vm_compute in Hbody. by injection Hbody as <- _ _. }
  exact (conj Hst
           (Hthm st outFiles w1 (sample_shard_names_distinct _ _ _) eq_refl Hst)).
Defined.

Lemma map_creates_every_shard_witness :
  0 < 3 ∧
  match @doMap_body sample "job" 0 "in.txt" 3 wc_mapFunc wc_input with
  | Returns (st, outFiles) w1 =>
      status st = 0 ∧ length outFiles = 3%nat ∧
      ∀ i, 0 ≤ i < 3 → is_Some (files w1 !! @reduceName sample "job" 0 i)
  | Panics _ _ => False
  end.
Proof.
  split; [lia|].
  pose proof (@map_creates_every_shard sample "job" 0 "in.txt" 3 wc_mapFunc
                wc_input) as Hthm.
  destruct (@doMap_body sample "job" 0 "in.txt" 3 wc_mapFunc wc_input)
    as [[st outFiles] w1|p w1] eqn:Hbody; [|by vm_compute in Hbody].
  assert (status st = 0) as Hst.
  { vm_compute in Hbody. by injection Hbody as <- _ _. }
  destruct (Hthm st outFiles w1 ltac:(lia) eq_refl Hst) as (content & _ & Hlen & Hall).
  split; [exact Hst|]. split; [exact Hlen|].
  intros i Hi. exact (proj1 (proj2 (Hall i Hi))).
Defined.

Lemma partition_in_range_witness :
  0 < 3 ∧
  (∀ idx, partition "a" 3 = Some idx → 0 ≤ idx < 3) ∧
  (3 < 2 ^ 32 → partition "a" 3 = Some (ihash "a" mod 3)).
Proof. split; [lia|]. apply (partition_in_range "a" 3). lia. Defined.


Lemma reduce_tolerates_absent_shard_witness :
  @read_loop sample "job" 0 2 0 (mkFlags 0 None) [] sparse_shards =
    (mkFlags 0 None, [KV "a" "1"]) ∧
  group [KV "a" "1"] = {[ "a" := ["1"] ]} ∧
  ∃ w1,
    @doReduce sample "job" 0 2 wc_reduceFunc sparse_shards = Returns tt w1 ∧
    stdout w1 = stdout sparse_shards ∧
    calls w1 = calls sparse_shards ++ [ReduceCall "a" ["1"]] ∧
    files w1 !! @mergeName sample "job" 0 =
      Some (delivered sparse_shards (@mergeName sample "job" 0) (record "a" "1")) ∧
    (write_limit sparse_shards (@mergeName sample "job" 0) = None →
     files w1 !! @mergeName sample "job" 0 = Some (record "a" "1")).
Proof.
  apply (proj2 (@reduce_tolerates_absent_shard sample) "job" 0 wc_reduceFunc
           sparse_shards (record "a" "1") (record "a" "1"));
    first [exact sample_range_enumerates | by vm_compute].
Defined.

Lemma reduce_failure_is_the_error_string_witness :
  ∃ w1,
    @doReduce sample "job" 0 1 last_reduceFunc error_value = Returns tt w1 ∧
    files w1 = files error_value ∧
    stdout w1 =
      stdout error_value ++
      ["Function error [DoReduce.doReduce]: Reduce Function Error" +:+ nl].
Proof.
  apply (proj2 (@reduce_failure_is_the_error_string sample) "job" 0 1
           last_reduceFunc error_value [KV "k" "error"] "k");
    first [exact sample_range_enumerates | by vm_compute | by (simpl; left)].
Defined.

Lemma sample_input_is_no_shard i : @reduceName sample "job" 0 i ≠ "in.txt".
Proof. intros Heq. discriminate Heq. Qed.


(** C1, as stated, fails.  The shard index is not the hash modulo the shard
    count when the count does not fit in 32 bits; and a map task completes
    with [status] 0 and prints nothing although none of the four pairs routed
    to its second shard has reached the file: the result of the write is not
    looked at. *)
Lemma map_shard_can_miss_its_pairs :
  partition "a" (2 ^ 32 + 1) = Some 0 ∧
  ihash "a" mod (2 ^ 32 + 1) ≠ 0 ∧
  ∃ outFiles w1,
    @doMap_body sample "job" 0 "in.txt" 3 wc_mapFunc wc_input_full =
      Returns (mkFlags 0 None, outFiles) w1 ∧
    @doMap sample "job" 0 "in.txt" 3 wc_mapFunc wc_input_full = Returns tt w1 ∧
    stdout w1 = [] ∧
    routed 3 1 (wc_mapFunc "in.txt" "a b a c d") =
      [KV "a" "1"; KV "b" "1"; KV "a" "1"; KV "d" "1"] ∧
    files w1 !! "mrtmp.job-0-1" = Some EmptyString.
Proof.
  split; [by vm_compute|]. split; [by vm_compute|]. eexists _, _. by vm_compute.
Qed.



(** C2 — a failed map task leaves the shards it created.  With two shards,
    the input ["a"] (whose pair goes to shard 0) and a second shard that
    cannot be created, shard 0 is written, the creation of shard 1 fails, and
    the cleanup removes nothing: [Stat] on the handle of shard 0, closed after
    the write, fails.  Shard 0, which was not there before, is on disk after
    the failed invocation. *)
Theorem map_failure_leaves_created_shard :
  files faulty_input !! "mrtmp.job-0-0" = None ∧
  ∃ w1,
    @doMap sample "job" 0 "in.txt" 2 wc_mapFunc faulty_input = Returns tt w1 ∧
    stdout w1 =
      ["Function error [DoMap.doMap]: stat mrtmp.job-0-0: file already closed" +:+ nl] ∧
    files w1 !! "mrtmp.job-0-0" = Some (record "a" "1").
Proof. split; [by vm_compute|]. eexists. by vm_compute. Qed.

(** C4, as stated, fails: ["error"] is a result like any other of the
    transform that returns the last value of a key, yet the task is aborted
    and no merge file is written. *)
Lemma error_result_aborts_the_task :
  last_reduceFunc "k" ["error"] = "error" ∧
  @input_pairs sample error_value "job" 0 1 = [KV "k" "error"] ∧
  ∃ w1,
    @doReduce sample "job" 0 1 last_reduceFunc error_value = Returns tt w1 ∧
    stdout w1 = ["Function error [DoReduce.doReduce]: Reduce Function Error" +:+ nl] ∧
    files w1 !! "mrtmp.job-res-0" = None.
Proof. split; [by vm_compute|]. split; [by vm_compute|]. eexists. by vm_compute. Qed.

(** C5 — the merge file follows the order of [range].  Two runtimes that
    both enumerate every entry of a map once, over the same shards and with
    the same transform, call the transform in different orders and write
    different merge files: the keys are not put in a fixed order. *)
Theorem merge_file_follows_range_order :
  @range_enumerates sample ∧ @range_enumerates sample_reversed ∧
  ∃ w1 w2,
    @doReduce sample "job" 0 2 wc_reduceFunc two_shards = Returns tt w1 ∧
    @doReduce sample_reversed "job" 0 2 wc_reduceFunc two_shards = Returns tt w2 ∧
    calls w1 = [ReduceCall "a" ["1"; "2"]; ReduceCall "b" ["3"]] ∧
    calls w2 = [ReduceCall "b" ["3"]; ReduceCall "a" ["1"; "2"]] ∧
    files w1 !! "mrtmp.job-res-0" = Some (record "a" "2" +:+ record "b" "1") ∧
    files w2 !! "mrtmp.job-res-0" = Some (record "b" "1" +:+ record "a" "2") ∧
    files w1 !! "mrtmp.job-res-0" ≠ files w2 !! "mrtmp.job-res-0".
Proof.
  split; [exact sample_range_enumerates|].
  split; [exact sample_reversed_range_enumerates|].
  eexists _, _. by vm_compute.
Qed.

(** C6, as stated, fails: with no shard the modulo is a division by zero at
    the first pair, and with no pair either the task completes as if nothing
    were wrong. *)
Lemma map_zero_shards_divides_by_zero :
  partition "a" 0 = None ∧
  (∃ w1, @doMap sample "job" 0 "in.txt" 0 wc_mapFunc wc_input = Panics DivideByZero w1) ∧
  (∃ w1, @doMap sample "job" 0 "in.txt" 0 wc_mapFunc (disk [("in.txt", EmptyString)]) =
         Returns tt w1 ∧ stdout w1 = []).
Proof.
  split; [by vm_compute|]. split; eexists; by vm_compute.
Qed.

(** C7, as stated, fails: a map task whose input is missing returns what a
    successful one returns; the failure is on the standard output only. *)
Lemma map_failure_returns_as_success :
  ∃ w1 w2,
    @doMap sample "job" 0 "missing.txt" 3 wc_mapFunc wc_input = Returns tt w1 ∧
    stdout w1 =
      ["Function error [DoMap.doMap]: open missing.txt: no such file or directory" +:+ nl] ∧
    @doMap sample "job" 0 "in.txt" 3 wc_mapFunc wc_input = Returns tt w2 ∧
    stdout w2 = [].
Proof. eexists _, _. by vm_compute. Qed.

Lemma failure_is_printed_not_returned_witness :
  match @doMap_body sample "job" 0 "missing.txt" 3 wc_mapFunc wc_input with
  | Returns (st, outFiles) w1 =>
      status st ≠ 0 ∧ stdout w1 = stdout wc_input ∧
      ∃ e, st = fail e ∧
           @doMap sample "job" 0 "missing.txt" 3 wc_mapFunc wc_input =
           Returns tt (Printf (error_line "DoMap.doMap" (handler_error e outFiles)) w1)
  | Panics _ _ => False
  end.
Proof.
  pose proof (proj1 (@failure_is_printed_not_returned sample) "job" 0
                "missing.txt" 3 wc_mapFunc wc_input) as Hthm.
  destruct (@doMap_body sample "job" 0 "missing.txt" 3 wc_mapFunc wc_input)
    as [[st outFiles] w1|p w1] eqn:Hbody; [|by vm_compute in Hbody].
  assert (status st ≠ 0) as Hst.
  { vm_compute in Hbody. by injection Hbody as <- _ _. }
  destruct (Hthm st outFiles w1 eq_refl) as (Hout & [[Hst0 _]|[_ Hprint]]).
  - by destruct Hst.
  - exact (conj Hst (conj Hout Hprint)).
Defined.

(** ** Further properties of the two executors *)

Section Executors.
Context {ext : Externals}.

(** *** What a map task touches *)

Lemma remove_if_exists_cases fileName w o w1 :
  remove_if_exists fileName w = (o, w1) →
  (w1 = w ∨ (o = None ∧ w1 = set_files (delete fileName (files w)) w)).
Proof.
  unfold remove_if_exists, os_Stat, os_Remove.
  destruct (fault w SysStat fileName); simpl; [intros [= <- <-]; by left|].
  destruct (files w !! fileName); simpl.
  - destruct (fault w SysRemove fileName); intros [= <- <-]; [by left|by right].
  - intros [= <- <-]. by left.
Qed.

Lemma create_and_write_None_files fileName encodingString st w st1 w1 :
  create_and_write fileName encodingString st w = (st1, None, w1) →
  w1 = w ∨ w1 = set_files (delete fileName (files w)) w.
Proof.
  unfold create_and_write.
  destruct (remove_if_exists fileName w) as [[e|] w0] eqn:Hrm.
  - intros [= <- <-]. apply remove_if_exists_cases in Hrm as [->|[? _]]; by auto.
  - unfold os_Create. destruct (fault w0 SysCreate fileName); [|done].
    intros [= <- <-]. apply remove_if_exists_cases in Hrm as [->|[_ ->]]; by auto.
Qed.

Lemma create_and_write_other fileName encodingString st w st1 outFile w1 p :
  create_and_write fileName encodingString st w = (st1, outFile, w1) →
  p ≠ fileName → files w1 !! p = files w !! p.
Proof.
  intros Hcw Hp. destruct outFile as [file|].
  - apply create_and_write_Some in Hcw as (_ & _ & ->). simpl.
    by rewrite lookup_insert_ne.
  - apply create_and_write_None_files in Hcw as [-> | ->]; [done|]. simpl.
    by rewrite lookup_delete_ne.
Qed.

Lemma create_loop_other jobName mapTaskNumber todo i st outFiles w st1 outFiles1 w1 p :
  create_loop jobName mapTaskNumber todo i st outFiles w = (st1, outFiles1, w1) →
  (∀ k, (k < length todo)%nat → reduceName jobName mapTaskNumber (i + Z.of_nat k) ≠ p) →
  files w1 !! p = files w !! p.
Proof.
  revert i st outFiles w.
  induction todo as [|s todo IH]; intros i st outFiles w; simpl.
  - by intros [= <- <- <-].
  - intros Hloop Hp.
    assert (p ≠ reduceName jobName mapTaskNumber i) as Hp0.
    { specialize (Hp 0%nat). rewrite Z.add_0_r in Hp. intros ->.
      apply Hp; [simpl; lia|done]. }
    destruct (create_and_write _ s st w) as [[st0 [file|]] w0] eqn:Hcw.
    + rewrite (IH _ _ _ _ Hloop).
      * by eapply create_and_write_other.
      * intros k Hk. replace (i + 1 + Z.of_nat k) with (i + Z.of_nat (S k)) by lia.
        apply Hp. lia.
    + injection Hloop as <- <- <-. by eapply create_and_write_other.
Qed.


(** When the body returns, so does [doMap], with the files as the body left
    them. *)
Lemma doMap_returns jobName mapTaskNumber inFile nReduce mapFunc w st outFiles w1 :
  doMap_body jobName mapTaskNumber inFile nReduce mapFunc w = Returns (st, outFiles) w1 →
  ∃ w2, doMap jobName mapTaskNumber inFile nReduce mapFunc w = Returns tt w2 ∧
        files w2 = files w1 ∧ calls w2 = calls w1 ∧ fault w2 = fault w1.
Proof.
  intros Hbody. destruct (decide (status st = 0)) as [Hst|Hst].
  - exists w1. split; [by eapply doMap_success|done].
  - destruct (doMap_failure _ _ _ _ _ _ _ _ _ Hbody Hst) as [e He].
    eexists. split; [exact He|done].
Qed.

Lemma doMap_body_other jobName mapTaskNumber inFile nReduce mapFunc w p :
  (∀ i, 0 ≤ i < nReduce → reduceName jobName mapTaskNumber i ≠ p) →
  match doMap_body jobName mapTaskNumber inFile nReduce mapFunc w with
  | Returns _ w1 | Panics _ w1 => files w1 !! p = files w !! p
  end.
Proof.
  intros Hp. unfold doMap_body.
  destruct (makeslice nReduce w) as [p0|] eqn:Hmk.
  { by destruct (os_ReadFile inFile w). }
  apply makeslice_None in Hmk.
  destruct (os_ReadFile inFile w) as [e|content] eqn:Hread; simpl; [done|].
  destruct (encode_loop _ _ _ _) as [p0|[st1 buffers]] eqn:Henc; [done|].
  destruct (decide (status st1 = 0)) as [Hst1|Hst1]; [|done].
  destruct (create_loop _ _ _ _ _ _ _) as [[st2 outFiles2] w2] eqn:Hloop.
  destruct (encode_loop_ok _ _ _ _ _ _ Henc Hst1) as (_ & Hlen & _).
  rewrite length_replicate in Hlen.
  rewrite (create_loop_other _ _ _ _ _ _ _ _ _ _ p Hloop); [done|].
  intros k Hk. apply Hp. lia.
Qed.

(** X1 — an input that cannot be read.  When the slice of encodings can be
    made (a shard count from 0 to 2^44 that the memory holds), the map task
    then calls no transform and touches no file: it prints the error of the
    read and returns. *)
Theorem map_read_failure_has_no_effect
    jobName mapTaskNumber inFile nReduce mapFunc w e :
  0 ≤ nReduce ≤ maxSliceLen → nReduce ≤ capacity w →
  os_ReadFile inFile w = inl e →
  doMap jobName mapTaskNumber inFile nReduce mapFunc w =
  Returns tt (Printf (error_line "DoMap.doMap" e) w).
Proof.
  intros Hn Hcap Hread. unfold doMap, doMap_body. rewrite Hread.
  by rewrite makeslice_fits by done.
Qed.


(** X3 — a map task touches its own shards only.  Whatever the outcome
    (success, failure or panic), a path that is not the name of one of the
    task's [nReduce] shards holds afterwards what it held before. *)
Theorem doMap_touches_only_its_shards
    jobName mapTaskNumber inFile nReduce mapFunc w p :
  (∀ i, 0 ≤ i < nReduce → reduceName jobName mapTaskNumber i ≠ p) →
  match doMap jobName mapTaskNumber inFile nReduce mapFunc w with
  | Returns _ w1 | Panics _ w1 => files w1 !! p = files w !! p
  end.
Proof.
  intros Hp.
  pose proof (doMap_body_other jobName mapTaskNumber inFile nReduce mapFunc w p Hp)
    as Hother.
  unfold doMap.
  destruct (doMap_body jobName mapTaskNumber inFile nReduce mapFunc w)
    as [[st outFiles] w1|p1 w1] eqn:Hbody; [|done].
  destruct (doMap_returns _ _ _ _ _ _ _ _ _ Hbody) as (w2 & Hret & Hfiles & _).
  unfold doMap in Hret. rewrite Hbody in Hret. rewrite Hret.
  by rewrite Hfiles.
Qed.

(** *** The encoders and the shard files, step by step *)

Lemma encode_loop_prefix pre rest nReduce st buffers :
  0 ≤ nReduce → uint32 nReduce ≠ 0 → length buffers = Z.to_nat nReduce →
  Forall (λ kv, ∃ bytes, Encode kv = inr bytes) pre →
  ∃ buffers1,
    length buffers1 = Z.to_nat nReduce ∧
    encode_loop (pre ++ rest) nReduce st buffers = encode_loop rest nReduce st buffers1.
Proof.
  intros Hn Hnz. revert buffers.
  induction pre as [|kv pre IH]; intros buffers Hlen Hall; simpl.
  - by exists buffers.
  - apply Forall_cons in Hall as [[bytes Hbytes] Hall].
    unfold partition. rewrite decide_False by done.
    assert (0 ≤ ihash (Key kv) `mod` uint32 nReduce < uint32 nReduce) as Hidx.
    { apply Z.mod_pos_bound. pose proof (uint32_range nReduce). lia. }
    pose proof (uint32_le nReduce Hn).
    destruct (buffers !! Z.to_nat _) as [buffer|] eqn:Hb.
    2: { apply lookup_ge_None in Hb. lia. }
    rewrite Hbytes. apply IH; [|done]. by rewrite length_insert.
Qed.

Lemma encode_loop_first_failure pre kv post nReduce st buffers e :
  0 ≤ nReduce → uint32 nReduce ≠ 0 → length buffers = Z.to_nat nReduce →
  Forall (λ kv, ∃ bytes, Encode kv = inr bytes) pre →
  Encode kv = inl e →
  ∃ buffers1, encode_loop (pre ++ kv :: post) nReduce st buffers = inr (fail e, buffers1).
Proof.
  intros Hn Hnz Hlen Hall He.
  destruct (encode_loop_prefix pre (kv :: post) nReduce st buffers Hn Hnz Hlen Hall)
    as (buffers1 & Hlen1 & ->).
  simpl. unfold partition. rewrite decide_False by done.
  assert (0 ≤ ihash (Key kv) `mod` uint32 nReduce < uint32 nReduce) as Hidx.
  { apply Z.mod_pos_bound. pose proof (uint32_range nReduce). lia. }
  pose proof (uint32_le nReduce Hn).
  destruct (buffers1 !! Z.to_nat _) as [buffer|] eqn:Hb.
  2: { apply lookup_ge_None in Hb. lia. }
  rewrite He. by eexists.
Qed.


Lemma doMap_body_calls jobName mapTaskNumber inFile nReduce mapFunc w content :
  0 ≤ nReduce ≤ maxSliceLen → nReduce ≤ capacity w →
  os_ReadFile inFile w = inr content →
  match doMap_body jobName mapTaskNumber inFile nReduce mapFunc w with
  | Returns _ w1 | Panics _ w1 => calls w1 = calls w ++ [MapCall inFile content]
  end.
Proof.
  intros Hn Hcap Hread. unfold doMap_body. rewrite Hread.
  rewrite makeslice_fits by done. simpl.
  destruct (encode_loop _ _ _ _) as [p0|[st1 buffers]] eqn:Henc; [done|].
  destruct (decide (status st1 = 0)) as [Hst1|Hst1]; [|done].
  destruct (create_loop _ _ _ _ _ _ _) as [[st2 outFiles2] w2] eqn:Hloop.
  apply create_loop_frame in Hloop as (_ & _ & _ & ->); [done|].
  apply Forall_replicate. by intros file [=].
Qed.

(** X4 — a pair that does not encode.  All pairs are encoded before any
    file is created: when the slice of encodings can be made (a shard count
    from 0 to 2^44 that the memory holds) and [Encode] fails, the map task
    has called the transform and touched no file, and it prints the error of
    the first pair that failed. *)
Theorem map_encode_failure_touches_no_file
    jobName mapTaskNumber inFile nReduce mapFunc w content pre kv post e :
  0 ≤ nReduce ≤ maxSliceLen → nReduce ≤ capacity w → uint32 nReduce ≠ 0 →
  os_ReadFile inFile w = inr content →
  mapFunc inFile content = pre ++ kv :: post →
  Forall (λ kv, ∃ bytes, Encode kv = inr bytes) pre →
  Encode kv = inl e →
  doMap jobName mapTaskNumber inFile nReduce mapFunc w =
  Returns tt (Printf (error_line "DoMap.doMap" e)
                (log_call (MapCall inFile content) w)).
Proof.
  intros Hn Hcap Hnz Hread Hout Hpre He.
  unfold doMap, doMap_body. rewrite Hread, Hout.
  rewrite makeslice_fits by done. simpl.
  destruct (encode_loop_first_failure pre kv post nReduce (mkFlags 0 None)
              (replicate (Z.to_nat nReduce) EmptyString) e (proj1 Hn) Hnz
              (length_replicate _ _) Hpre He) as [buffers1 ->].
  done.
Qed.

(** X5 — the handler removes nothing.  Every handle that [doMap] keeps in
    [outFiles] was closed right after its file was written, so in the
    handler [Stat] fails on each and [os.Remove] is never called: when
    [doMap] returns, the files are those the body left. *)
Theorem map_handler_removes_nothing
    jobName mapTaskNumber inFile nReduce mapFunc w st outFiles w1 :
  doMap_body jobName mapTaskNumber inFile nReduce mapFunc w = Returns (st, outFiles) w1 →
  all_closed outFiles ∧
  ∃ w2,
    doMap jobName mapTaskNumber inFile nReduce mapFunc w = Returns tt w2 ∧
    files w2 = files w1.
Proof.
  intros Hbody. split; [by apply doMap_body_frame in Hbody as (_ & ? & _)|].
  destruct (doMap_returns _ _ _ _ _ _ _ _ _ Hbody) as (w2 & Hret & Hfiles & _).
  by exists w2.
Qed.

(** X6 — the map transform is called once.  When the input is read and the
    slice of encodings can be made (a shard count from 0 to 2^44 that the
    memory holds), the transform is called exactly once, on the name and the
    content of the input, whatever happens afterwards. *)
Theorem map_calls_transform_once
    jobName mapTaskNumber inFile nReduce mapFunc w content :
  0 ≤ nReduce ≤ maxSliceLen → nReduce ≤ capacity w →
  os_ReadFile inFile w = inr content →
  match doMap jobName mapTaskNumber inFile nReduce mapFunc w with
  | Returns _ w1 | Panics _ w1 => calls w1 = calls w ++ [MapCall inFile content]
  end.
Proof.
  intros Hn Hcap Hread.
  pose proof (doMap_body_calls jobName mapTaskNumber inFile nReduce mapFunc w
                content Hn Hcap Hread) as Hcalls.
  unfold doMap.
  destruct (doMap_body jobName mapTaskNumber inFile nReduce mapFunc w)
    as [[st outFiles] w1|p1 w1] eqn:Hbody; [|done].
  destruct (doMap_returns _ _ _ _ _ _ _ _ _ Hbody) as (w2 & Hret & _ & Hc & _).
  unfold doMap in Hret. rewrite Hbody in Hret. rewrite Hret. by rewrite Hc.
Qed.



(** *** The partitioner *)

Lemma fnv32a_Write_app h s1 s2 :
  fnv32a_Write h (s1 +:+ s2) = fnv32a_Write (fnv32a_Write h s1) s2.
Proof.
  revert h. induction s1 as [|c s1 IH]; intros h; [done|].
  change (String c s1 +:+ s2) with (String c (s1 +:+ s2)). simpl. apply IH.
Qed.

(** X9 — the hash is a 32-bit value, and it is incremental: hashing a key
    is hashing its first part and then writing the rest to the same hash. *)
Theorem ihash_32bit_incremental s1 s2 :
  0 ≤ ihash s1 < 2 ^ 32 ∧
  ihash (s1 +:+ s2) = fnv32a_Write (ihash s1) s2.
Proof. split; [apply ihash_range|apply fnv32a_Write_app]. Qed.

(** X10 — only the low 32 bits of the shard count reach the partitioner:
    [uint32(nReduce)] drops the others, so the index is the same for
    [nReduce] and [nReduce + k * 2^32], and the modulo divides by zero
    exactly when [nReduce] is a multiple of 2^32. *)
Theorem partition_uses_low_32_bits key nReduce k :
  partition key (nReduce + k * 2 ^ 32) = partition key nReduce ∧
  (partition key nReduce = None ↔ nReduce mod 2 ^ 32 = 0).
Proof.
  split.
  - unfold partition, uint32. by rewrite Z_mod_plus_full.
  - unfold partition, uint32. case_decide; [done|]. by split.
Qed.

(** *** What a reduce task touches *)

Lemma doReduce_returns jobName reduceTaskNumber nMap reduceFunc w st outFile w1 :
  doReduce_body jobName reduceTaskNumber nMap reduceFunc w = (st, outFile, w1) →
  ∃ w2, doReduce jobName reduceTaskNumber nMap reduceFunc w = Returns tt w2 ∧
        files w2 = files w1 ∧ calls w2 = calls w1.
Proof.
  intros Hbody. destruct (decide (status st = 0)) as [Hst|Hst].
  - exists w1. split; [by eapply doReduce_success|done].
  - destruct (doReduce_failure _ _ _ _ _ _ _ _ Hbody Hst) as [e He].
    eexists. split; [exact He|done].
Qed.

(** The files at the end of the body: those of the start, but for the merge
    file, which is written when the body ends with [status] 0 and is
    otherwise as it was or gone. *)
Lemma doReduce_body_files jobName reduceTaskNumber nMap reduceFunc w st outFile w1 :
  doReduce_body jobName reduceTaskNumber nMap reduceFunc w = (st, outFile, w1) →
  (status st = 0 ∧ ∃ bytes,
     files w1 = <[mergeName jobName reduceTaskNumber := bytes]> (files w)) ∨
  (status st ≠ 0 ∧ outFile = None ∧
   (files w1 = files w ∨
    files w1 = delete (mergeName jobName reduceTaskNumber) (files w))).
Proof.
  intros Hbody. destruct (decide (status st = 0)) as [Hst|Hst].
  { left. split; [done|].
    destruct (doReduce_body_ok _ _ _ _ _ _ _ _ Hbody Hst) as (_ & _ & bytes & _ & ->).
    by eexists. }
  right. split; [done|]. revert Hbody. unfold doReduce_body.
  destruct (read_loop _ _ _ _ _ _ _) as [st1 keyValues] eqn:Hread.
  destruct (decide (status st1 = 0)) as [Hst1|Hst1].
  2: { simpl. rewrite !decide_False by done. intros [= <- <- <-]. by auto. }
  destruct (reduce_loop _ _ _ _ _) as [[st2 newKeyValues] w2] eqn:Hred.
  apply reduce_loop_status in Hred as (_ & Hf2 & _).
  destruct (decide (status st2 = 0)) as [Hst2|Hst2].
  2: { simpl. rewrite decide_False by done. intros [= <- <- <-]. by auto. }
  destruct (encode_all _ _ _) as [st3 buffer] eqn:Henc.
  destruct (decide (status st3 = 0)) as [Hst3|Hst3].
  2: { intros [= <- <- <-]. by auto. }
  rewrite ?decide_True by done.
  destruct (create_and_write _ _ _ _) as [[st4 [file|]] w4] eqn:Hcw.
  - apply create_and_write_Some in Hcw as (-> & _ & _).
    apply encode_all_status in Henc. intros [= <- <- <-].
    destruct Henc as [->|[e ->]]; done.
  - apply create_and_write_None_files in Hcw as [-> | ->];
      intros [= <- <- <-]; (split; [done|]); simpl; rewrite Hf2; by auto.
Qed.

(** X11 — a reduce task always returns, and touches the merge file only.
    [doReduce] never panics (the text of [err] is read only after [err] was
    set), and a path that is not the name of the merge file holds afterwards
    what it held before: the shards it reads are left as they are. *)
Theorem doReduce_returns_and_keeps_other_files
    jobName reduceTaskNumber nMap reduceFunc w :
  ∃ w1,
    doReduce jobName reduceTaskNumber nMap reduceFunc w = Returns tt w1 ∧
    ∀ p, p ≠ mergeName jobName reduceTaskNumber → files w1 !! p = files w !! p.
Proof.
  destruct (doReduce_body jobName reduceTaskNumber nMap reduceFunc w)
    as [[st outFile] w1] eqn:Hbody.
  destruct (doReduce_returns _ _ _ _ _ _ _ _ Hbody) as (w2 & Hret & Hfiles & _).
  exists w2. split; [done|]. intros p Hp. rewrite Hfiles.
  destruct (doReduce_body_files _ _ _ _ _ _ _ _ Hbody)
    as [(_ & bytes & ->)|(_ & _ & [-> | ->])].
  - by rewrite lookup_insert_ne.
  - done.
  - by rewrite lookup_delete_ne.
Qed.

(** X12 — a failed reduce task leaves no merge file of its own.  When the
    body ends with a [status] other than 0, no output file was created and
    kept: the files are those before the task, or those before the task less
    the merge file of an earlier run (removed before a creation that failed). *)
Theorem reduce_failure_writes_no_merge_file
    jobName reduceTaskNumber nMap reduceFunc w st outFile w1 :
  doReduce_body jobName reduceTaskNumber nMap reduceFunc w = (st, outFile, w1) →
  status st ≠ 0 →
  outFile = None ∧
  ∃ w2,
    doReduce jobName reduceTaskNumber nMap reduceFunc w = Returns tt w2 ∧
    (files w2 = files w ∨
     files w2 = delete (mergeName jobName reduceTaskNumber) (files w)).
Proof.
  intros Hbody Hst.
  destruct (doReduce_returns _ _ _ _ _ _ _ _ Hbody) as (w2 & Hret & Hfiles & _).
  destruct (doReduce_body_files _ _ _ _ _ _ _ _ Hbody)
    as [(Hst0 & _)|(_ & Hnone & Hw1)]; [done|].
  split; [done|]. exists w2. split; [done|]. by rewrite Hfiles.
Qed.

(** *** Reading the shards *)

Lemma doReduce_after_failed_read jobName reduceTaskNumber nMap reduceFunc w st keyValues :
  read_loop jobName reduceTaskNumber (Z.to_nat nMap) 0 (mkFlags 0 None) [] w =
    (st, keyValues) →
  status st ≠ 0 →
  ∃ e, st = fail e ∧
       doReduce jobName reduceTaskNumber nMap reduceFunc w =
       Returns tt (Printf (error_line "DoReduce.doReduce" e) w).
Proof.
  intros Hread Hst.
  apply read_loop_status in Hread as Hflags.
  destruct Hflags as [->|[e ->]]; [done|].
  exists e. split; [done|].
  unfold doReduce, doReduce_body. rewrite Hread. simpl.
  by rewrite ?decide_False by done.
Qed.

(** Whether decoding fails does not depend on the flags and the pairs the
    loop starts with. *)
Lemma decode_loop_failure fuel rest tempKV keyValues0 e :
  (decode_loop fuel rest tempKV (mkFlags 0 None) keyValues0).1 = fail e →
  ∀ st keyValues, (decode_loop fuel rest tempKV st keyValues).1 = fail e.
Proof.
  revert rest tempKV keyValues0.
  induction fuel as [|fuel IH]; intros rest tempKV keyValues0; simpl; [done|].
  destruct (decoder_More rest); [|done].
  destruct (Decode rest tempKV) as [e0|[kv n]]; simpl; [done|].
  intros Hfail st keyValues. by eapply IH.
Qed.

Lemma read_loop_stays_failed jobName reduceTaskNumber count i st keyValues w :
  status st ≠ 0 →
  status (read_loop jobName reduceTaskNumber count i st keyValues w).1 ≠ 0.
Proof.
  intros Hst.
  destruct (read_loop _ _ _ _ _ _ _) as [st1 keyValues1] eqn:Hread.
  apply read_loop_status in Hread as [->|[e ->]]; done.
Qed.

Lemma read_loop_malformed jobName reduceTaskNumber count i st keyValues w k content e :
  (k < count)%nat →
  files w !! reduceName jobName (i + Z.of_nat k) reduceTaskNumber = Some content →
  (decode_file content (mkFlags 0 None) []).1 = fail e →
  status (read_loop jobName reduceTaskNumber count i st keyValues w).1 ≠ 0.
Proof.
  revert i st keyValues k.
  induction count as [|count IH]; intros i st keyValues k Hk Hfile Hdec; [lia|].
  simpl. destruct k as [|k].
  - rewrite Z.add_0_r in Hfile. unfold os_Stat, os_Open. rewrite Hfile.
    destruct (fault w SysStat _); simpl; [done|].
    destruct (fault w SysOpen _); simpl; [done|]. rewrite Hfile. simpl.
    pose proof (decode_loop_failure _ _ _ _ _ Hdec st keyValues) as Hfail.
    unfold decode_file.
    destruct (decode_loop _ content _ st keyValues) as [st1 keyValues1].
    simpl in Hfail. subst st1. by apply read_loop_stays_failed.
  - replace (i + Z.of_nat (S k)) with (i + 1 + Z.of_nat k) in Hfile by lia.
    destruct (os_Stat _ w) as [tempErr|].
    + destruct (Is_ErrNotExist tempErr); [|done]. eapply IH; [|done..]. lia.
    + destruct (os_Open _ w) as [tempErr|file]; [done|].
      destruct (decode_file _ st keyValues) as [st1 keyValues1].
      eapply IH; [|done..]. lia.
Qed.

Lemma read_loop_all_absent jobName reduceTaskNumber count i st keyValues w :
  (∀ k, (k < count)%nat →
     fault w SysStat (reduceName jobName (i + Z.of_nat k) reduceTaskNumber) = None ∧
     files w !! reduceName jobName (i + Z.of_nat k) reduceTaskNumber = None) →
  read_loop jobName reduceTaskNumber count i st keyValues w = (st, keyValues).
Proof.
  revert i. induction count as [|count IH]; intros i Habsent; [done|].
  destruct (Habsent 0%nat ltac:(lia)) as [Hfault Hfile].
  rewrite Z.add_0_r in Hfault, Hfile.
  rewrite read_loop_absent by done. apply IH. intros k Hk.
  replace (i + 1 + Z.of_nat k) with (i + Z.of_nat (S k)) by lia.
  apply Habsent. lia.
Qed.

Lemma range_empty : range_enumerates → range_map ∅ = [].
Proof.
  intros Hrange. apply Permutation_nil_r.
  by rewrite (Hrange ∅), map_to_list_empty.
Qed.

(** X13 — shards that cannot be read.  When reading the shards ends with a
    [status] other than 0, the reduce transform is never called and no file
    is touched: [doReduce] prints the error and returns. *)
Theorem reduce_read_failure_calls_nothing
    jobName reduceTaskNumber nMap reduceFunc w st keyValues :
  read_loop jobName reduceTaskNumber (Z.to_nat nMap) 0 (mkFlags 0 None) [] w =
    (st, keyValues) →
  status st ≠ 0 →
  ∃ e, doReduce jobName reduceTaskNumber nMap reduceFunc w =
       Returns tt (Printf (error_line "DoReduce.doReduce" e) w).
Proof.
  intros Hread Hst.
  destruct (doReduce_after_failed_read _ _ _ reduceFunc _ _ _ Hread Hst)
    as (e & _ & Hret).
  by exists e.
Qed.

(** X14 — a shard that does not decode fails the task.  When the content of
    one of the [nMap] shards makes [Decode] fail, the reduce task fails,
    whatever the other shards hold: it calls no transform, touches no file
    and prints an error. *)
Theorem reduce_malformed_shard_fails
    jobName reduceTaskNumber nMap reduceFunc w i content e :
  0 ≤ i < nMap →
  files w !! reduceName jobName i reduceTaskNumber = Some content →
  (decode_file content (mkFlags 0 None) []).1 = fail e →
  ∃ e', doReduce jobName reduceTaskNumber nMap reduceFunc w =
        Returns tt (Printf (error_line "DoReduce.doReduce" e') w).
Proof.
  intros Hi Hfile Hdec.
  destruct (read_loop jobName reduceTaskNumber (Z.to_nat nMap) 0 (mkFlags 0 None) [] w)
    as [st keyValues] eqn:Hread.
  assert (status st ≠ 0) as Hst.
  { pose proof (read_loop_malformed jobName reduceTaskNumber (Z.to_nat nMap) 0
                  (mkFlags 0 None) [] w (Z.to_nat i) content e) as Hbad.
    rewrite Hread in Hbad. apply Hbad; [lia| |done].
    by rewrite Z.add_0_l, Z2Nat.id by lia. }
  destruct (doReduce_after_failed_read _ _ _ reduceFunc _ _ _ Hread Hst)
    as (e' & _ & Hret).
  by exists e'.
Qed.

(** X15 — no shard at all.  When none of the [nMap] shards is on disk (as
    when [nMap] is 0 or less), the reduce task calls no transform and writes
    an empty merge file. *)
Theorem reduce_without_shards_writes_empty_file
    jobName reduceTaskNumber nMap reduceFunc w :
  range_enumerates →
  (∀ i, 0 ≤ i < nMap →
     fault w SysStat (reduceName jobName i reduceTaskNumber) = None ∧
     files w !! reduceName jobName i reduceTaskNumber = None) →
  fault w SysStat (mergeName jobName reduceTaskNumber) = None →
  fault w SysRemove (mergeName jobName reduceTaskNumber) = None →
  fault w SysCreate (mergeName jobName reduceTaskNumber) = None →
  doReduce jobName reduceTaskNumber nMap reduceFunc w =
  Returns tt
    (set_files (<[mergeName jobName reduceTaskNumber := EmptyString]> (files w)) w).
Proof.
  intros Hrange Habsent Hstat Hremove Hcreate.
  unfold doReduce, doReduce_body.
  rewrite read_loop_all_absent.
  2: { intros k Hk. rewrite Z.add_0_l. apply Habsent. lia. }
  simpl. change (group []) with (∅ : gmap string (list string)).
  rewrite range_empty by done. simpl.
  rewrite create_and_write_no_fault by done.
  unfold delivered. by rewrite cut_empty.
Qed.

(** *** Running a reduce task again, and running it unhindered *)


Lemma decode_loop_flags fuel rest tempKV st keyValues keyValues0 :
  (decode_loop fuel rest tempKV (mkFlags 0 None) keyValues0).1 = mkFlags 0 None →
  (decode_loop fuel rest tempKV st keyValues).1 = st.
Proof.
  revert rest tempKV keyValues keyValues0.
  induction fuel as [|fuel IH]; intros rest tempKV keyValues keyValues0; simpl; [done|].
  destruct (decoder_More rest); [|done].
  destruct (Decode rest tempKV) as [e0|[kv n]]; simpl; [done|].
  by apply IH.
Qed.

Lemma read_loop_no_fault jobName reduceTaskNumber count i st keyValues w :
  no_faults w →
  (∀ k content, (k < count)%nat →
     files w !! reduceName jobName (i + Z.of_nat k) reduceTaskNumber = Some content →
     (decode_file content (mkFlags 0 None) []).1 = mkFlags 0 None) →
  (read_loop jobName reduceTaskNumber count i st keyValues w).1 = st.
Proof.
  intros Hnf. revert i st keyValues.
  induction count as [|count IH]; intros i st keyValues Hdec; [done|].
  assert (∀ k content, (k < count)%nat →
     files w !! reduceName jobName (i + 1 + Z.of_nat k) reduceTaskNumber = Some content →
     (decode_file content (mkFlags 0 None) []).1 = mkFlags 0 None) as Hdec'.
  { intros k content Hk Hfile.
    replace (i + 1 + Z.of_nat k) with (i + Z.of_nat (S k)) in Hfile by lia.
    eapply Hdec; [|done]. lia. }
  simpl. unfold os_Stat, os_Open. rewrite !Hnf.
  destruct (files w !! reduceName jobName i reduceTaskNumber) as [content|] eqn:Hfile;
    simpl; [|by apply IH].
  rewrite Hfile. simpl.
  pose proof (decode_loop_flags (String.length content) content
                (KV EmptyString EmptyString) st keyValues []) as Hflags.
  unfold decode_file in *.
  destruct (decode_loop _ content _ st keyValues) as [st1 keyValues1].
  simpl in Hflags. rewrite Hflags; [by apply IH|].
  apply (Hdec 0%nat); [lia|]. by rewrite Z.add_0_r.
Qed.

Lemma encode_all_total newKeyValues st buffer :
  Forall (λ kv, ∃ bytes, Encode kv = inr bytes) newKeyValues →
  ∃ bytes, encode_all newKeyValues st buffer = (st, buffer +:+ bytes).
Proof.
  revert buffer. induction newKeyValues as [|kv kvs IH]; intros buffer Hall; simpl.
  - exists EmptyString. by rewrite string_app_nil_r.
  - apply Forall_cons in Hall as [[bytes0 ->] Hall].
    destruct (IH (buffer +:+ bytes0) Hall) as [bytes ->].
    exists (bytes0 +:+ bytes). by rewrite string_app_assoc.
Qed.




(** X17 — a reduce task succeeds when nothing is in its way.  With no
    failing system call, shards that all decode, and a transform whose
    result for every key is not ["error"] and encodes, [doReduce] ends with
    [status] 0, prints nothing and returns. *)
Theorem reduce_succeeds_without_faults
    jobName reduceTaskNumber nMap reduceFunc w :
  range_enumerates →
  no_faults w →
  (∀ i content, 0 ≤ i < nMap →
     files w !! reduceName jobName i reduceTaskNumber = Some content →
     (decode_file content (mkFlags 0 None) []).1 = mkFlags 0 None) →
  (∀ key, key ∈ Key <$> input_pairs w jobName reduceTaskNumber nMap →
     reduceFunc key (values_of key (input_pairs w jobName reduceTaskNumber nMap))
       ≠ "error" ∧
     ∃ bytes,
       Encode (KV key
                 (reduceFunc key
                    (values_of key (input_pairs w jobName reduceTaskNumber nMap))))
       = inr bytes) →
  ∃ outFile w1,
    doReduce_body jobName reduceTaskNumber nMap reduceFunc w =
      (mkFlags 0 None, outFile, w1) ∧
    doReduce jobName reduceTaskNumber nMap reduceFunc w = Returns tt w1 ∧
    stdout w1 = stdout w.
Proof.
  intros Hrange Hnf Hdec Hkeys.
  destruct (read_loop jobName reduceTaskNumber (Z.to_nat nMap) 0 (mkFlags 0 None) [] w)
    as [st keyValues] eqn:Hread.
  assert (st = mkFlags 0 None) as ->.
  { pose proof (read_loop_no_fault jobName reduceTaskNumber (Z.to_nat nMap) 0
                  (mkFlags 0 None) [] w Hnf) as Hok.
    rewrite Hread in Hok. apply Hok. intros k content Hk Hfile.
    rewrite Z.add_0_l in Hfile. eapply (Hdec (Z.of_nat k)); [lia|done]. }
  destruct (read_loop_ok _ _ _ _ _ _ _ _ _ Hread eq_refl) as (_ & ->).
  rewrite seqZ_to_nat in Hread. simpl in Hread.
  fold (input_pairs w jobName reduceTaskNumber nMap) in Hread.
  set (keyValues := input_pairs w jobName reduceTaskNumber nMap) in *.
  destruct (range_entries keyValues Hrange) as (_ & Hin & Hvalues).
  assert (∀ entry, entry ∈ range_map (group keyValues) →
            reduceFunc entry.1 entry.2 ≠ "error" ∧
            ∃ bytes, Encode (reduced reduceFunc entry) = inr bytes) as Hentries.
  { intros [key values] Hentry.
    assert (key ∈ Key <$> keyValues) as Hkey.
    { apply Hin. apply list_elem_of_fmap. by exists (key, values). }
    rewrite (Hvalues key values Hentry). by apply Hkeys. }
  assert (Forall (λ entry, reduceFunc entry.1 entry.2 ≠ "error")
            (range_map (group keyValues))) as Hne.
  { apply Forall_forall. intros entry Hentry. by apply Hentries. }
  destruct (encode_all_total (reduced reduceFunc <$> range_map (group keyValues))
              (mkFlags 0 None) EmptyString) as [bytes Henc].
  { apply Forall_fmap, Forall_forall. intros entry Hentry. by apply Hentries. }
  assert (doReduce_body jobName reduceTaskNumber nMap reduceFunc w =
          (mkFlags 0 None,
           Some (mkFile (mergeName jobName reduceTaskNumber) true),
           set_files (<[mergeName jobName reduceTaskNumber :=
                          delivered w (mergeName jobName reduceTaskNumber) bytes]>
                        (files w))
             (log_calls (reduce_call <$> range_map (group keyValues)) w)))
    as Hbody.
  { unfold doReduce_body. rewrite Hread. simpl.
    rewrite reduce_loop_ok by done. simpl. rewrite Henc. simpl.
    by rewrite create_and_write_no_fault by apply Hnf. }
  eexists _, _. split; [exact Hbody|]. split; [|done].
  by eapply doReduce_success.
Qed.

End Executors.

(** ** The further properties on the concrete instance *)

Lemma disk_no_faults contents : no_faults (disk contents).
Proof. by intros c path. Qed.


Lemma map_read_failure_has_no_effect_witness :
  0 ≤ 3 ≤ maxSliceLen ∧ 3 ≤ capacity wc_input ∧
  @doMap sample "job" 0 "missing.txt" 3 wc_mapFunc wc_input =
  Returns tt
    (Printf (error_line "DoMap.doMap" (PathError "open" "missing.txt" ErrNotExist))
       wc_input).
Proof.
  split; [unfold maxSliceLen; lia|]. split; [by vm_compute|].
  apply (@map_read_failure_has_no_effect sample "job" 0 "missing.txt" 3
           wc_mapFunc wc_input); [unfold maxSliceLen; lia|by vm_compute|by vm_compute].
Defined.

Lemma doMap_touches_only_its_shards_witness :
  match @doMap sample "job" 0 "in.txt" 3 wc_mapFunc wc_input with
  | Returns _ w1 | Panics _ w1 => files w1 !! "in.txt" = files wc_input !! "in.txt"
  end.
Proof.
  apply (@doMap_touches_only_its_shards sample "job" 0 "in.txt" 3 wc_mapFunc
           wc_input "in.txt").
  intros i _. apply sample_input_is_no_shard.
Defined.

Lemma map_encode_failure_touches_no_file_witness :
  @doMap sample_refusing "job" 0 "in.txt" 3 wc_mapFunc wc_input =
  Returns tt
    (Printf (error_line "DoMap.doMap" (ErrorString "json: unsupported value"))
       (log_call (MapCall "in.txt" "a b a c d") wc_input)).
Proof.
  apply (@map_encode_failure_touches_no_file sample_refusing "job" 0 "in.txt" 3
           wc_mapFunc wc_input "a b a c d"
           [KV "a" "1"; KV "b" "1"; KV "a" "1"] (KV "c" "1") [KV "d" "1"]);
    [unfold maxSliceLen; lia|by vm_compute|by vm_compute|by vm_compute|by vm_compute|
     |by vm_compute].
  repeat constructor; by eexists.
Defined.

Lemma map_handler_removes_nothing_witness :
  match @doMap_body sample "job" 0 "in.txt" 2 wc_mapFunc faulty_input with
  | Returns (st, outFiles) w1 =>
      status st ≠ 0 ∧ all_closed outFiles ∧
      ∃ w2, @doMap sample "job" 0 "in.txt" 2 wc_mapFunc faulty_input = Returns tt w2 ∧
            files w2 = files w1
  | Panics _ _ => False
  end.
Proof.
  pose proof (@map_handler_removes_nothing sample "job" 0 "in.txt" 2 wc_mapFunc
                faulty_input) as Hthm.
  destruct (@doMap_body sample "job" 0 "in.txt" 2 wc_mapFunc faulty_input)
    as [[st outFiles] w1|p w1] eqn:Hbody; [|by vm_compute in Hbody].
  assert (status st ≠ 0) as Hst.
  { vm_compute in Hbody. by injection Hbody as <- _ _. }
  exact (conj Hst (Hthm st outFiles w1 eq_refl)).
Defined.

Lemma map_calls_transform_once_witness :
  match @doMap sample "job" 0 "in.txt" 3 wc_mapFunc wc_input with
  | Returns _ w1 | Panics _ w1 =>
      calls w1 = calls wc_input ++ [MapCall "in.txt" "a b a c d"]
  end.
Proof.
  apply (@map_calls_transform_once sample "job" 0 "in.txt" 3 wc_mapFunc wc_input
           "a b a c d"); [unfold maxSliceLen; lia|by vm_compute|by vm_compute].
Defined.



Lemma reduce_failure_writes_no_merge_file_witness :
  match @doReduce_body sample "job" 0 1 last_reduceFunc error_value with
  | (st, outFile, _) =>
      status st ≠ 0 ∧ outFile = None ∧
      ∃ w2,
        @doReduce sample "job" 0 1 last_reduceFunc error_value = Returns tt w2 ∧
        (files w2 = files error_value ∨
         files w2 = delete (@mergeName sample "job" 0) (files error_value))
  end.
Proof.
  pose proof (@reduce_failure_writes_no_merge_file sample "job" 0 1
                last_reduceFunc error_value) as Hthm.
  destruct (@doReduce_body sample "job" 0 1 last_reduceFunc error_value)
    as [[st outFile] w1] eqn:Hbody.
  assert (status st ≠ 0) as Hst.
  { vm_compute in Hbody. by injection Hbody as <- _ _. }
  exact (conj Hst (Hthm st outFile w1 eq_refl Hst)).
Defined.

Lemma reduce_read_failure_calls_nothing_witness :
  match @read_loop sample "job" 0 (Z.to_nat 1) 0 (mkFlags 0 None) [] damaged_shard with
  | (st, _) =>
      status st ≠ 0 ∧
      ∃ e, @doReduce sample "job" 0 1 wc_reduceFunc damaged_shard =
           Returns tt (Printf (error_line "DoReduce.doReduce" e) damaged_shard)
  end.
Proof.
  pose proof (@reduce_read_failure_calls_nothing sample "job" 0 1 wc_reduceFunc
                damaged_shard) as Hthm.
  destruct (@read_loop sample "job" 0 (Z.to_nat 1) 0 (mkFlags 0 None) [] damaged_shard)
    as [st keyValues] eqn:Hread.
  assert (status st ≠ 0) as Hst.
  { vm_compute in Hread. by injection Hread as <- _. }
  exact (conj Hst (Hthm st keyValues eq_refl Hst)).
Defined.

Lemma reduce_malformed_shard_fails_witness :
  ∃ e, @doReduce sample "job" 0 1 wc_reduceFunc damaged_shard =
       Returns tt (Printf (error_line "DoReduce.doReduce" e) damaged_shard).
Proof.
  apply (@reduce_malformed_shard_fails sample "job" 0 1 wc_reduceFunc damaged_shard
           0 (record "a" "1" +:+ "{oops") (ErrorString "invalid character in record"));
    [lia|by vm_compute|by vm_compute].
Defined.

Lemma reduce_without_shards_writes_empty_file_witness :
  @doReduce sample "job" 0 2 wc_reduceFunc (disk []) =
  Returns tt (set_files (<[@mergeName sample "job" 0 := EmptyString]> (files (disk [])))
                (disk [])).
Proof.
  apply (@reduce_without_shards_writes_empty_file sample "job" 0 2 wc_reduceFunc
           (disk [])); [exact sample_range_enumerates| |done..].
  intros i _. split; [done|]. apply lookup_empty.
Defined.



Lemma reduce_succeeds_without_faults_witness :
  ∃ outFile w1,
    @doReduce_body sample "job" 0 2 wc_reduceFunc two_shards =
      (mkFlags 0 None, outFile, w1) ∧
    @doReduce sample "job" 0 2 wc_reduceFunc two_shards = Returns tt w1 ∧
    stdout w1 = stdout two_shards.
Proof.
  apply (@reduce_succeeds_without_faults sample "job" 0 2 wc_reduceFunc two_shards);
    [exact sample_range_enumerates|apply disk_no_faults| |].
  - intros i content Hi Hfile.
    assert (i = 0 ∨ i = 1) as [-> | ->] by lia;
      vm_compute in Hfile; injection Hfile as <-; by vm_compute.
  - intros key Hkey.
    assert (key = "a" ∨ key = "b") as [-> | ->].
    { vm_compute in Hkey.
      repeat (apply elem_of_cons in Hkey as [->|Hkey]; [by auto|]).
      by apply elem_of_nil in Hkey. }
    + split; [by vm_compute|]. by eexists.
    + split; [by vm_compute|]. by eexists.
Defined.
